(** * IrregularExpression: a fluent builder of regular-expression patterns

    Shallow embedding of [src/mod.ts].  The builder object is a record that is
    passed through every method (explicit state passing: a method of the
    class takes the receiver last and returns the receiver after the call).
    The host's regular-expression engine is not part of the repository; the
    terminal operations take it as a parameter ([Engine]) and a small
    reference matcher (Module [RefEngine]) instantiates it for the concrete
    examples.  A callback is modelled by its effect on the builder it is
    handed. *)

From Stdlib Require Import String Ascii List Bool Arith ZArith QArith Qround Lia.
From Stdlib Require Import DecimalString Permutation.
Import ListNotations.

Close Scope Q_scope.
Open Scope nat_scope.
Open Scope string_scope.
Open Scope list_scope.

(** ** Host values *)

(** The [number] arguments of the class.  Finite values are kept exact as
    rationals (every double is one); the three non-finite values are separate
    constructors. *)
Inductive number : Type :=
| Finite (q : Q)
| NaN
| PosInf
| NegInf.

Definition ofZ (z : Z) : number := Finite (inject_Z z).

(** [Number.isInteger]. *)
Definition Number_isInteger (x : number) : bool :=
  match x with
  | Finite q => (Z.pos (Qden (Qred q)) =? 1)%Z
  | _ => false
  end.

(** The relational operators [<] and [<=] on numbers (every comparison with
    [NaN] is false). *)
Definition number_ltb (x y : number) : bool :=
  match x, y with
  | NaN, _ | _, NaN => false
  | Finite a, Finite b => negb (Qle_bool b a)
  | NegInf, NegInf => false
  | NegInf, _ => true
  | _, PosInf => match x with PosInf => false | _ => true end
  | _, _ => false
  end.

Definition number_leb (x y : number) : bool :=
  match x, y with
  | NaN, _ | _, NaN => false
  | Finite a, Finite b => Qle_bool a b
  | NegInf, _ => true
  | _, PosInf => true
  | _, _ => false
  end.

Definition Z_to_string (z : Z) : string := NilZero.string_of_int (Z.to_int z).

(** The string conversion of a template literal [`${n}`].  Every call site in
    the class is guarded by [Number.isInteger], so only integral values reach
    it.  An integer below 2^53 in magnitude prints as its decimal numeral;
    beyond that the host prints the shortest digits that identify the double,
    which is outside this model. *)
Definition Number_toString (x : number) : string :=
  match x with
  | Finite q => Z_to_string (Qfloor q)
  | NaN => "NaN"
  | PosInf => "Infinity"
  | NegInf => "-Infinity"
  end.

(** A [Set<string>]: iteration order is insertion order, [add] of a member
    changes nothing. *)
Definition Set_has (s : list string) (x : string) : bool :=
  existsb (String.eqb x) s.

Definition Set_add (s : list string) (x : string) : list string :=
  if Set_has s x then s else s ++ [x].

(** [Array.from(set).join('')]. *)
Definition join_empty (l : list string) : string := String.concat "" l.

(** ** The builder *)

Record IrregularExpression : Type := mkBuilder {
  pattern : string;            (* the pattern built so far *)
  flags : list string;         (* the Set of flags *)
  maxRun : option number;      (* number | null *)
  events : list string         (* details of the 'error' events dispatched *)
}.

(** The constructor, and the static factory [match]. *)
Definition new_IrregularExpression : IrregularExpression :=
  {| pattern := ""; flags := ["g"]; maxRun := None; events := [] |}.

Definition match_ : IrregularExpression := new_IrregularExpression.

Definition appendPattern (s : string) (b : IrregularExpression) : IrregularExpression :=
  {| pattern := pattern b ++ s; flags := flags b; maxRun := maxRun b;
     events := events b |}.

Definition addFlag (f : string) (b : IrregularExpression) : IrregularExpression :=
  {| pattern := pattern b; flags := Set_add (flags b) f; maxRun := maxRun b;
     events := events b |}.

(** [emitError]: dispatches a CustomEvent 'error' whose detail is the message;
    the log records what a listener observes. *)
Definition emitError (message : string) (b : IrregularExpression) : IrregularExpression :=
  {| pattern := pattern b; flags := flags b; maxRun := maxRun b;
     events := events b ++ [message] |}.

Definition getPattern (b : IrregularExpression) : string := pattern b.

(** *** Flags *)

Definition ignoreCase (b : IrregularExpression) : IrregularExpression :=
  if negb (Set_has (flags b) "i") then addFlag "i" b else b.

Definition multiline (b : IrregularExpression) : IrregularExpression :=
  if negb (Set_has (flags b) "m") then addFlag "m" b else b.

Definition dotAll (b : IrregularExpression) : IrregularExpression :=
  if negb (Set_has (flags b) "s") then addFlag "s" b else b.

Definition unicode (b : IrregularExpression) : IrregularExpression :=
  if negb (Set_has (flags b) "u") then addFlag "u" b else b.

Definition runTimes (count : number) (b : IrregularExpression) : IrregularExpression :=
  if number_leb count (ofZ 0) || negb (Number_isInteger count) then
    emitError "runTimes expects a positive integer." b
  else
    {| pattern := pattern b; flags := flags b; maxRun := Some count;
       events := events b |}.

(** *** Fixed tokens *)

Definition startOfLine := appendPattern "^".
Definition endOfLine := appendPattern "$".
Definition anySingleCharacter := appendPattern ".".
Definition zeroOrMore := appendPattern "*".
Definition oneOrMore := appendPattern "+".
Definition zeroOrOne := appendPattern "?".
Definition digit := appendPattern "\d".
Definition nonDigit := appendPattern "\D".
Definition wordCharacter := appendPattern "\w".
Definition nonWordCharacter := appendPattern "\W".
Definition whitespace := appendPattern "\s".
Definition nonWhitespace := appendPattern "\S".
Definition wordBoundary := appendPattern "\b".

(** *** Escaping *)

(** The character class of [/[.*+?^${}()|[\]\\]/g]. *)
Definition specialChars : list ascii :=
  ["."; "*"; "+"; "?"; "^"; "$"; "{"; "}"; "("; ")"; "|"; "["; "]"; "\"]%char.

Definition inClass (cls : list ascii) (c : ascii) : bool :=
  existsb (Ascii.eqb c) cls.

(** The replacement template of [String.prototype.replace]: [$$] is a dollar
    sign, [$&] the matched text, anything else stands for itself (the
    templates of the class use no other form). *)
Fixpoint getSubstitution (matched template : string) : string :=
  match template with
  | EmptyString => EmptyString
  | String c rest =>
      match rest with
      | String d rest' =>
          if (Ascii.eqb c "$" && Ascii.eqb d "&")%char then
            matched ++ getSubstitution matched rest'
          else if (Ascii.eqb c "$" && Ascii.eqb d "$")%char then
            String "$" (getSubstitution matched rest')
          else String c (getSubstitution matched rest)
      | EmptyString => String c EmptyString
      end
  end.

(** [text.replace(/[cls]/g, template)]: a one-character class matches at
    every position holding a member, left to right. *)
Fixpoint replaceClassGlobal (cls : list ascii) (template text : string) : string :=
  match text with
  | EmptyString => EmptyString
  | String c rest =>
      (if inClass cls c then getSubstitution (String c EmptyString) template
       else String c EmptyString)
      ++ replaceClassGlobal cls template rest
  end.

Definition escapeRegExp (text : string) : string :=
  replaceClassGlobal specialChars "\$&" text.

Definition escapeSpecialChars (str : string) : string :=
  replaceClassGlobal specialChars "\$&" str.

Definition literal (text : string) (b : IrregularExpression) : IrregularExpression :=
  appendPattern (escapeRegExp text) b.

Definition range (start end_ : string) : IrregularExpression -> IrregularExpression :=
  appendPattern ("[" ++ start ++ "-" ++ end_ ++ "]").

Definition notInRange (start end_ : string) : IrregularExpression -> IrregularExpression :=
  appendPattern ("[^" ++ start ++ "-" ++ end_ ++ "]").

Definition anyOf (chars : string) : IrregularExpression -> IrregularExpression :=
  appendPattern ("[" ++ escapeRegExp chars ++ "]").

Definition noneOf (chars : string) : IrregularExpression -> IrregularExpression :=
  appendPattern ("[^" ++ escapeRegExp chars ++ "]").

Definition anyCharacterExcept (chars : string) : IrregularExpression -> IrregularExpression :=
  appendPattern ("[^" ++ escapeSpecialChars chars ++ "]").

(** *** Quantifiers *)

Definition exactly (n : number) (b : IrregularExpression) : IrregularExpression :=
  if negb (Number_isInteger n) || number_ltb n (ofZ 0) then
    emitError "exactly expects a non-negative integer." b
  else appendPattern ("{" ++ Number_toString n ++ "}") b.

Definition atLeast (n : number) (b : IrregularExpression) : IrregularExpression :=
  if negb (Number_isInteger n) || number_ltb n (ofZ 0) then
    emitError "atLeast expects a non-negative integer." b
  else appendPattern ("{" ++ Number_toString n ++ ",}") b.

Definition between (n m : number) (b : IrregularExpression) : IrregularExpression :=
  if negb (Number_isInteger n) || negb (Number_isInteger m)
     || number_ltb n (ofZ 0) || number_ltb m n then
    emitError "between expects two non-negative integers where m >= n." b
  else appendPattern ("{" ++ Number_toString n ++ "," ++ Number_toString m ++ "}") b.

(** *** Groups

    A callback is the effect it has on the builder it is given. *)
Definition callback : Type := IrregularExpression -> IrregularExpression.

Definition wrapGroup (opening : string) (cb : callback) (b : IrregularExpression)
  : IrregularExpression :=
  let groupBuilder := cb match_ in
  appendPattern (opening ++ getPattern groupBuilder ++ ")") b.

Definition capture : callback -> IrregularExpression -> IrregularExpression :=
  wrapGroup "(".

Definition namedCapture (name : string) (cb : callback) (b : IrregularExpression)
  : IrregularExpression :=
  let groupBuilder := cb match_ in
  appendPattern ("(?<" ++ name ++ ">" ++ getPattern groupBuilder ++ ")") b.

Definition nonCapturingGroup := wrapGroup "(?:".
Definition positiveLookahead := wrapGroup "(?=".
Definition negativeLookahead := wrapGroup "(?!".
Definition positiveLookbehind := wrapGroup "(?<=".
Definition negativeLookbehind := wrapGroup "(?<!".

(** [or(callback?)]. *)
Definition or (cb : option callback) (b : IrregularExpression) : IrregularExpression :=
  let b1 := appendPattern "|" b in
  match cb with
  | Some f => let altBuilder := f match_ in appendPattern (getPattern altBuilder) b1
  | None => b1
  end.

(** [group(callback)]: the callback runs on the receiver itself. *)
Definition group (cb : callback) (b : IrregularExpression) : IrregularExpression :=
  appendPattern ")" (cb (appendPattern "(" b)).

(** *** Back-references *)

Definition backreference (groupNumber : number) (b : IrregularExpression)
  : IrregularExpression :=
  if negb (Number_isInteger groupNumber) || number_ltb groupNumber (ofZ 1) then
    emitError "backreference expects a positive integer representing the group number." b
  else appendPattern ("\" ++ Number_toString groupNumber) b.

Definition isAlpha_ (c : ascii) : bool :=
  let n := nat_of_ascii c in
  ((65 <=? n) && (n <=? 90) || (97 <=? n) && (n <=? 122) || (n =? 95))%nat.

Definition isAlnum_ (c : ascii) : bool :=
  let n := nat_of_ascii c in
  (isAlpha_ c || (48 <=? n) && (n <=? 57))%nat.

Fixpoint all_chars (p : ascii -> bool) (s : string) : bool :=
  match s with
  | EmptyString => true
  | String c rest => p c && all_chars p rest
  end.

(** [/^[A-Za-z_][A-Za-z0-9_]*$/.test(groupName)]. *)
Definition isGroupName (s : string) : bool :=
  match s with
  | EmptyString => false
  | String c rest => isAlpha_ c && all_chars isAlnum_ rest
  end.

Definition namedBackreference (groupName : string) (b : IrregularExpression)
  : IrregularExpression :=
  if negb (isGroupName groupName) then
    emitError "namedBackreference expects a valid group name consisting of letters, numbers, and underscores, not starting with a number." b
  else appendPattern ("\k<" ++ groupName ++ ">") b.

(** *** combine *)

(** [expr.flags.forEach(flag => combined.flags.add(flag))]. *)
Definition addFlags (fs : list string) (b : IrregularExpression) : IrregularExpression :=
  fold_left (fun acc flag => addFlag flag acc) fs b.

Definition combine (expressions : list IrregularExpression) : IrregularExpression :=
  fold_left (fun combined expr => addFlags (flags expr) (appendPattern (getPattern expr) combined))
            expressions new_IrregularExpression.

(** ** The chain of calls a caller writes

    A callback handed to a group method is itself a chain of fluent calls, so
    the calls form a tree; [runOp] and [runChain] perform them with the
    methods above. *)
Inductive op : Type :=
| OIgnoreCase | OMultiline | ODotAll | OUnicode
| ORunTimes (count : number)
| OStartOfLine | OEndOfLine | OAnySingleCharacter
| OZeroOrMore | OOneOrMore | OZeroOrOne
| OLiteral (text : string)
| ODigit | ONonDigit | OWordCharacter | ONonWordCharacter
| OWhitespace | ONonWhitespace | OWordBoundary
| ORange (start end_ : string) | ONotInRange (start end_ : string)
| OAnyOf (chars : string) | ONoneOf (chars : string)
| OAnyCharacterExcept (chars : string)
| OExactly (n : number) | OAtLeast (n : number) | OBetween (n m : number)
| OCapture (body : chain)
| ONamedCapture (name : string) (body : chain)
| ONonCapturingGroup (body : chain)
| OPositiveLookahead (body : chain) | ONegativeLookahead (body : chain)
| OPositiveLookbehind (body : chain) | ONegativeLookbehind (body : chain)
| OOr
| OOrWith (body : chain)
| OGroup (body : chain)
| OBackreference (groupNumber : number)
| ONamedBackreference (groupName : string)
with chain : Type :=
| Done
| Call (o : op) (rest : chain).

Fixpoint runOp (o : op) (b : IrregularExpression) {struct o} : IrregularExpression :=
  match o with
  | OIgnoreCase => ignoreCase b
  | OMultiline => multiline b
  | ODotAll => dotAll b
  | OUnicode => unicode b
  | ORunTimes count => runTimes count b
  | OStartOfLine => startOfLine b
  | OEndOfLine => endOfLine b
  | OAnySingleCharacter => anySingleCharacter b
  | OZeroOrMore => zeroOrMore b
  | OOneOrMore => oneOrMore b
  | OZeroOrOne => zeroOrOne b
  | OLiteral text => literal text b
  | ODigit => digit b
  | ONonDigit => nonDigit b
  | OWordCharacter => wordCharacter b
  | ONonWordCharacter => nonWordCharacter b
  | OWhitespace => whitespace b
  | ONonWhitespace => nonWhitespace b
  | OWordBoundary => wordBoundary b
  | ORange s e => range s e b
  | ONotInRange s e => notInRange s e b
  | OAnyOf chars => anyOf chars b
  | ONoneOf chars => noneOf chars b
  | OAnyCharacterExcept chars => anyCharacterExcept chars b
  | OExactly n => exactly n b
  | OAtLeast n => atLeast n b
  | OBetween n m => between n m b
  | OCapture body => capture (runChain body) b
  | ONamedCapture name body => namedCapture name (runChain body) b
  | ONonCapturingGroup body => nonCapturingGroup (runChain body) b
  | OPositiveLookahead body => positiveLookahead (runChain body) b
  | ONegativeLookahead body => negativeLookahead (runChain body) b
  | OPositiveLookbehind body => positiveLookbehind (runChain body) b
  | ONegativeLookbehind body => negativeLookbehind (runChain body) b
  | OOr => or None b
  | OOrWith body => or (Some (runChain body)) b
  | OGroup body => group (runChain body) b
  | OBackreference n => backreference n b
  | ONamedBackreference name => namedBackreference name b
  end
with runChain (c : chain) (b : IrregularExpression) {struct c} : IrregularExpression :=
  match c with
  | Done => b
  | Call o rest => runChain rest (runOp o b)
  end.

Scheme op_chain_ind := Induction for op Sort Prop
  with chain_op_ind := Induction for chain Sort Prop.

(** The builders a program can hold: made by [match], by a chain of calls on
    one it holds, or by [combine] of some it holds. *)
Inductive Reachable : IrregularExpression -> Prop :=
| R_match : Reachable match_
| R_chain : forall c b, Reachable b -> Reachable (runChain c b)
| R_combine : forall bs, (forall b, In b bs -> Reachable b) -> Reachable (combine bs).

(** ** The engine boundary *)

(** What one search reports: where the match starts, the matched text and the
    captured groups. *)
Record MatchResult : Type := mkMatch {
  mIndex : nat;
  mText : string;
  mGroups : list (option string)
}.

Definition mEnd (m : MatchResult) : nat := mIndex m + String.length (mText m).

(** A compiled pattern: the escaped source text and the search itself, which
    given the input and a start position not past its end finds the first
    match starting there or later. *)
Record Compiled : Type := mkCompiled {
  escapedSource : string;
  matchFrom : string -> nat -> option MatchResult
}.

(** The engine's compiler takes the pattern and the flag string and either
    compiles or raises a failure with a message. *)
Definition Engine : Type := string -> string -> Compiled + string.

Record RegExp : Type := mkRegExp {
  compiled : Compiled;
  originalFlags : string
}.

Definition new_RegExp (engine : Engine) (pat flagString : string) : RegExp + string :=
  match engine pat flagString with
  | inl c => inl {| compiled := c; originalFlags := flagString |}
  | inr message => inr message
  end.

Definition hasFlag (fl : string) (c : ascii) : bool :=
  existsb (Ascii.eqb c) (list_ascii_of_string fl).

(** The [flags] accessor of a compiled expression: one character per active
    flag, in the engine's order. *)
Definition engineFlagOrder : list ascii := ["d"; "g"; "i"; "m"; "s"; "u"; "v"; "y"]%char.

Definition RegExp_flags (r : RegExp) : string :=
  string_of_list_ascii (filter (hasFlag (originalFlags r)) engineFlagOrder).

Definition RegExp_toString (r : RegExp) : string :=
  "/" ++ escapedSource (compiled r) ++ "/" ++ RegExp_flags r.

Definition isGlobal (r : RegExp) : bool := hasFlag (originalFlags r) "g".

(** [regex.exec(input)] with the expression's [lastIndex] passed in and out
    (the class never builds a sticky expression). *)
Definition RegExp_exec (r : RegExp) (lastIndex : nat) (input : string)
  : option MatchResult * nat :=
  let start := if isGlobal r then lastIndex else 0 in
  if (String.length input <? start)%nat then
    (None, if isGlobal r then 0 else lastIndex)
  else
    match matchFrom (compiled r) input start with
    | None => (None, if isGlobal r then 0 else lastIndex)
    | Some m => (Some m, if isGlobal r then mEnd m else lastIndex)
    end.

Definition RegExp_test (r : RegExp) (lastIndex : nat) (input : string) : bool * nat :=
  match RegExp_exec r lastIndex input with
  | (Some _, li) => (true, li)
  | (None, li) => (false, li)
  end.

(** How a call ends: with a value, with a thrown failure, or still inside its
    loop after the iterations allowed. *)
Inductive completion (A : Type) : Type :=
| Normal (a : A)
| Throw (message : string)
| Running.
Arguments Normal {A} a.
Arguments Throw {A} message.
Arguments Running {A}.

(** ** Terminal operations *)

Definition sentinelPattern : string := "(?!x)x".

Definition build (engine : Engine) (b : IrregularExpression)
  : (RegExp + string) * IrregularExpression :=
  match new_RegExp engine (pattern b) (join_empty (flags b)) with
  | inl r => (inl r, b)
  | inr message =>
      let b' := emitError ("Invalid regex pattern: " ++ message) b in
      (new_RegExp engine sentinelPattern "", b')
  end.

Definition test (engine : Engine) (input : string) (b : IrregularExpression)
  : bool * IrregularExpression :=
  match build engine b with
  | (inl regex, b') => (fst (RegExp_test regex 0 input), b')
  | (inr message, b') => (false, emitError ("Test failed: " ++ message) b')
  end.

(** [this.maxRun !== null && count >= this.maxRun]. *)
Definition capReached (cap : option number) (count : nat) : bool :=
  match cap with
  | Some c => number_leb c (ofZ (Z.of_nat count))
  | None => false
  end.

(** The [while] loop of [execute]; [fuel] bounds the iterations run. *)
Fixpoint executeLoop (fuel : nat) (regex : RegExp) (cap : option number)
    (input : string) (lastIndex count : nat) (matches : list MatchResult)
  : completion (list MatchResult) :=
  match fuel with
  | 0 => Running
  | S fuel' =>
      match RegExp_exec regex lastIndex input with
      | (None, _) => Normal matches
      | (Some m, lastIndex') =>
          let matches' := matches ++ [m] in
          let count' := count + 1 in
          if capReached cap count' then Normal matches'
          else executeLoop fuel' regex cap input lastIndex' count' matches'
      end
  end.

Definition execute (engine : Engine) (fuel : nat) (input : string) (b : IrregularExpression)
  : completion (list MatchResult) * IrregularExpression :=
  match build engine b with
  | (inl regex, b') => (executeLoop fuel regex (maxRun b) input 0 0 [], b')
  | (inr message, b') => (Throw message, b')
  end.

(** [input.replace(regex, replacement)]: the substitution is the engine's. *)
Definition replace {R : Type} (engine : Engine)
    (engineReplace : RegExp -> string -> R -> string)
    (input : string) (replacement : R) (b : IrregularExpression)
  : completion string * IrregularExpression :=
  match build engine b with
  | (inl regex, b') => (Normal (engineReplace regex input replacement), b')
  | (inr message, b') => (Throw message, b')
  end.

(** ** A reference engine

    A backtracking matcher for the part of the pattern language that the
    builder's examples use: characters, escapes, classes, anchors, groups,
    alternation, quantifiers and lookaheads.  Back-references and lookbehinds
    are refused, captured groups are not reported.  It plays the host's engine
    when a statement is evaluated on a concrete input. *)
Module RefEngine.

Local Open Scope nat_scope.

Inductive charset : Type := Digits | WordChars | Spaces.

Inductive regex : Type :=
| Empty
| Char (c : ascii)
| AnyChar
| Class (negated : bool) (k : charset)
| Bracket (negated : bool) (items : list (ascii * ascii))
| LineStart
| LineEnd
| WordBoundary (negated : bool)
| Seq (r1 r2 : regex)
| Alt (r1 r2 : regex)
| Repeat (r : regex) (min : nat) (max : option nat) (greedy : bool)
| Group (r : regex)
| Lookahead (negated : bool) (r : regex).

Record options : Type := mkOptions {
  optIgnoreCase : bool;
  optMultiline : bool;
  optDotAll : bool
}.

Definition code (c : ascii) : nat := nat_of_ascii c.

Definition isDigit (c : ascii) : bool := (48 <=? code c) && (code c <=? 57).
Definition isUpper (c : ascii) : bool := (65 <=? code c) && (code c <=? 90).
Definition isLower (c : ascii) : bool := (97 <=? code c) && (code c <=? 122).
Definition isWord (c : ascii) : bool :=
  isDigit c || isUpper c || isLower c || (code c =? 95).
Definition isSpace (c : ascii) : bool :=
  (code c =? 32) || ((9 <=? code c) && (code c <=? 13)).
Definition isLineTerminator (c : ascii) : bool :=
  (code c =? 10) || (code c =? 13).

Definition toUpper (c : ascii) : ascii :=
  if isLower c then ascii_of_nat (code c - 32) else c.
Definition toLower (c : ascii) : ascii :=
  if isUpper c then ascii_of_nat (code c + 32) else c.

Definition inCharset (k : charset) (c : ascii) : bool :=
  match k with
  | Digits => isDigit c
  | WordChars => isWord c
  | Spaces => isSpace c
  end.

Definition inRange (c : ascii) (item : ascii * ascii) : bool :=
  (code (fst item) <=? code c) && (code c <=? code (snd item)).

Definition inItems (o : options) (items : list (ascii * ascii)) (c : ascii) : bool :=
  existsb (inRange c) items
  || (optIgnoreCase o
      && (existsb (inRange (toUpper c)) items || existsb (inRange (toLower c)) items)).

Definition sameChar (o : options) (c x : ascii) : bool :=
  if optIgnoreCase o then Ascii.eqb (toUpper c) (toUpper x) else Ascii.eqb c x.

Definition previous (whole : list ascii) (i : nat) : option ascii :=
  match i with
  | 0 => None
  | S j => nth_error whole j
  end.

Definition wordAt (c : option ascii) : bool :=
  match c with
  | Some x => isWord x
  | None => false
  end.

(** One character of the input against a test. *)
Definition step (p : ascii -> bool) (i : nat) (s : list ascii)
    (k : nat -> list ascii -> option nat) : option nat :=
  match s with
  | x :: s' => if p x then k (S i) s' else None
  | [] => None
  end.

Definition orElse (a : option nat) (b : unit -> option nat) : option nat :=
  match a with
  | Some e => Some e
  | None => b tt
  end.

(** [matchAt o whole r i s k]: match [r] at position [i], where [s] is the
    input from [i] on, then continue with [k]; the result is the end position
    of the whole match. *)
Fixpoint matchAt (o : options) (whole : list ascii) (r : regex) (i : nat)
    (s : list ascii) (k : nat -> list ascii -> option nat) {struct r} : option nat :=
  match r with
  | Empty => k i s
  | Char c => step (sameChar o c) i s k
  | AnyChar => step (fun x => optDotAll o || negb (isLineTerminator x)) i s k
  | Class negated cs => step (fun x => xorb negated (inCharset cs x)) i s k
  | Bracket negated items => step (fun x => xorb negated (inItems o items x)) i s k
  | LineStart =>
      match previous whole i with
      | None => k i s
      | Some x => if optMultiline o && isLineTerminator x then k i s else None
      end
  | LineEnd =>
      match s with
      | [] => k i s
      | x :: _ => if optMultiline o && isLineTerminator x then k i s else None
      end
  | WordBoundary negated =>
      if xorb negated (xorb (wordAt (previous whole i)) (wordAt (hd_error s)))
      then k i s else None
  | Seq r1 r2 => matchAt o whole r1 i s (fun i' s' => matchAt o whole r2 i' s' k)
  | Alt r1 r2 => orElse (matchAt o whole r1 i s k) (fun _ => matchAt o whole r2 i s k)
  | Repeat a mn mx greedy =>
      (fix loop (fuel mn : nat) (mx : option nat) (i : nat) (s : list ascii)
           {struct fuel} : option nat :=
         let leave := fun _ : unit => if mn =? 0 then k i s else None in
         match fuel with
         | 0 => leave tt
         | S fuel' =>
             match mx with
             | Some 0 => k i s
             | _ =>
                 let again := fun _ : unit =>
                   matchAt o whole a i s
                     (fun i' s' =>
                        if (mn =? 0) && (i' =? i) then None
                        else loop fuel' (pred mn) (option_map pred mx) i' s') in
                 if greedy then orElse (again tt) leave
                 else orElse (leave tt) again
             end
         end) (mn + length s + 1) mn mx i s
  | Group a => matchAt o whole a i s k
  | Lookahead negated a =>
      match matchAt o whole a i s (fun i' _ => Some i') with
      | Some _ => if negated then None else k i s
      | None => if negated then k i s else None
      end
  end.

(** The first position at or after [i] where [r] matches, with the end of the
    match. *)
Fixpoint searchFrom (o : options) (whole : list ascii) (r : regex) (i : nat)
    (s : list ascii) {struct s} : option (nat * nat) :=
  match matchAt o whole r i s (fun e _ => Some e) with
  | Some e => Some (i, e)
  | None =>
      match s with
      | [] => None
      | _ :: s' => searchFrom o whole r (S i) s'
      end
  end.

Definition search (o : options) (r : regex) (input : string) (start : nat)
  : option MatchResult :=
  let whole := list_ascii_of_string input in
  match searchFrom o whole r start (skipn start whole) with
  | Some (i, e) =>
      Some {| mIndex := i; mText := substring i (e - i) input; mGroups := [] |}
  | None => None
  end.

(** *** Reading a pattern *)

Fixpoint strip (prefix : string) (s : list ascii) : option (list ascii) :=
  match prefix with
  | EmptyString => Some s
  | String c prefix' =>
      match s with
      | x :: s' => if Ascii.eqb c x then strip prefix' s' else None
      | [] => None
      end
  end.

Definition isChar (c : ascii) (t : string) : bool :=
  match t with
  | String x EmptyString => Ascii.eqb c x
  | _ => false
  end.

Fixpoint parseDigits (acc : nat) (s : list ascii) : nat * list ascii :=
  match s with
  | c :: rest => if isDigit c then parseDigits (10 * acc + (code c - 48)) rest else (acc, s)
  | [] => (acc, s)
  end.

Definition startsWithDigit (s : list ascii) : bool :=
  match s with
  | c :: _ => isDigit c
  | [] => false
  end.

(** What follows an opening brace, when it is a quantifier. *)
Definition parseBraces (s : list ascii)
  : option (nat * option nat * list ascii) + string :=
  if startsWithDigit s then
    let (n, s1) := parseDigits 0 s in
    match strip "}" s1, strip ",}" s1, strip "," s1 with
    | Some rest, _, _ => inl (Some (n, Some n, rest))
    | None, Some rest, _ => inl (Some (n, None, rest))
    | None, None, Some s2 =>
        if startsWithDigit s2 then
          let (m, s3) := parseDigits 0 s2 in
          match strip "}" s3 with
          | Some rest =>
              if m <? n then inr "numbers out of order in {} quantifier"
              else inl (Some (n, Some m, rest))
          | None => inl None
          end
        else inl None
    | None, None, None => inl None
    end
  else inl None.

Definition lazySuffix (s : list ascii) : bool * list ascii :=
  match strip "?" s with
  | Some rest => (false, rest)
  | None => (true, s)
  end.

(** An optional quantifier after an atom. *)
Definition parseQuantifier (s : list ascii) : (regex -> regex) * list ascii + string :=
  let quantified (mn : nat) (mx : option nat) (rest : list ascii)
      : (regex -> regex) * list ascii + string :=
    inl (fun a => Repeat a mn mx (fst (lazySuffix rest)), snd (lazySuffix rest)) in
  match strip "*" s, strip "+" s, strip "?" s, strip "{" s with
  | Some rest, _, _, _ => quantified 0 None rest
  | None, Some rest, _, _ => quantified 1 None rest
  | None, None, Some rest, _ => quantified 0 (Some 1) rest
  | None, None, None, Some rest =>
      match parseBraces rest with
      | inl (Some (mn, mx, rest')) => quantified mn mx rest'
      | inl None => inl (fun a => a, s)
      | inr e => inr e
      end
  | None, None, None, None => inl (fun a => a, s)
  end.

Definition wordItems : list (ascii * ascii) :=
  [("a", "z"); ("A", "Z"); ("0", "9"); ("_", "_")]%char.

Definition spaceItems : list (ascii * ascii) :=
  [(" ", " "); (ascii_of_nat 9, ascii_of_nat 13)]%char.

Definition controlEscape (c : ascii) : ascii :=
  if isChar c "n" then ascii_of_nat 10
  else if isChar c "r" then ascii_of_nat 13
  else if isChar c "t" then ascii_of_nat 9
  else if isChar c "v" then ascii_of_nat 11
  else if isChar c "f" then ascii_of_nat 12
  else c.

(** The members of a bracketed class, up to its closing bracket. *)
Fixpoint parseItems (fuel : nat) (s : list ascii) (acc : list (ascii * ascii))
  : list (ascii * ascii) * list ascii + string :=
  match fuel with
  | 0 => inr "Unterminated character class"
  | S fuel' =>
      match s with
      | [] => inr "Unterminated character class"
      | c :: rest =>
          if isChar c "]" then inl (acc, rest)
          else if isChar c "\" then
            match rest with
            | [] => inr "\ at end of pattern"
            | e :: rest' =>
                if isChar e "d" then parseItems fuel' rest' (acc ++ [("0", "9")%char])
                else if isChar e "w" then parseItems fuel' rest' (acc ++ wordItems)
                else if isChar e "s" then parseItems fuel' rest' (acc ++ spaceItems)
                else if isChar e "D" || isChar e "W" || isChar e "S" then
                  inr "Negated class escapes inside brackets are not supported"
                else parseItems fuel' rest' (acc ++ [(controlEscape e, controlEscape e)])
            end
          else
            match rest with
            | d :: hi :: rest' =>
                if isChar d "-" && negb (isChar hi "]") && negb (isChar hi "\") then
                  if code hi <? code c then inr "Range out of order in character class"
                  else parseItems fuel' rest' (acc ++ [(c, hi)])
                else parseItems fuel' rest (acc ++ [(c, c)])
            | _ => parseItems fuel' rest (acc ++ [(c, c)])
            end
      end
  end.

Definition parseBracket (s : list ascii) : regex * list ascii + string :=
  let (negated, s1) :=
    match strip "^" s with
    | Some rest => (true, rest)
    | None => (false, s)
    end in
  match parseItems (S (length s1)) s1 [] with
  | inl (items, rest) => inl (Bracket negated items, rest)
  | inr e => inr e
  end.

Definition parseEscape (s : list ascii) : regex * list ascii + string :=
  match s with
  | [] => inr "\ at end of pattern"
  | e :: rest =>
      if isChar e "d" then inl (Class false Digits, rest)
      else if isChar e "D" then inl (Class true Digits, rest)
      else if isChar e "w" then inl (Class false WordChars, rest)
      else if isChar e "W" then inl (Class true WordChars, rest)
      else if isChar e "s" then inl (Class false Spaces, rest)
      else if isChar e "S" then inl (Class true Spaces, rest)
      else if isChar e "b" then inl (WordBoundary false, rest)
      else if isChar e "B" then inl (WordBoundary true, rest)
      else if isChar e "k" || (isDigit e && negb (isChar e "0")) then
        inr "Back-references are not supported"
      else inl (Char (controlEscape e), rest)
  end.

(** A group name up to its closing angle bracket; the name has to be an
    identifier. *)
Fixpoint splitName (s : list ascii) (name : list ascii)
  : option (list ascii * list ascii) :=
  match s with
  | [] => None
  | c :: rest => if isChar c ">" then Some (name, rest) else splitName rest (name ++ [c])
  end.

Definition skipName (s : list ascii) : option (list ascii) :=
  match splitName s [] with
  | Some (name, rest) =>
      if isGroupName (string_of_list_ascii name) then Some rest else None
  | None => None
  end.

Fixpoint parseAlt (fuel : nat) (s : list ascii) {struct fuel}
  : regex * list ascii + string :=
  match fuel with
  | 0 => inr "Pattern too large"
  | S fuel' =>
      match parseSeq fuel' s with
      | inr e => inr e
      | inl (r1, s1) =>
          match strip "|" s1 with
          | Some s2 =>
              match parseAlt fuel' s2 with
              | inr e => inr e
              | inl (r2, s3) => inl (Alt r1 r2, s3)
              end
          | None => inl (r1, s1)
          end
      end
  end
with parseSeq (fuel : nat) (s : list ascii) {struct fuel}
  : regex * list ascii + string :=
  match fuel with
  | 0 => inr "Pattern too large"
  | S fuel' =>
      match s with
      | [] => inl (Empty, [])
      | c :: _ =>
          if isChar c "|" || isChar c ")" then inl (Empty, s)
          else
            match parseAtom fuel' s with
            | inr e => inr e
            | inl (a, s1) =>
                match parseQuantifier s1 with
                | inr e => inr e
                | inl (q, s2) =>
                    match parseSeq fuel' s2 with
                    | inr e => inr e
                    | inl (r, s3) => inl (Seq (q a) r, s3)
                    end
                end
            end
      end
  end
with parseAtom (fuel : nat) (s : list ascii) {struct fuel}
  : regex * list ascii + string :=
  match fuel with
  | 0 => inr "Pattern too large"
  | S fuel' =>
      let body := fun (wrap : regex -> regex) (s' : list ascii) =>
        match parseAlt fuel' s' with
        | inr e => inr e
        | inl (r, s1) =>
            match strip ")" s1 with
            | Some s2 => inl (wrap r, s2)
            | None => inr "Unterminated group"
            end
        end in
      match s with
      | [] => inr "Unexpected end of pattern"
      | c :: rest =>
          if isChar c "(" then
            match strip "?:" rest, strip "?=" rest, strip "?!" rest with
            | Some s', _, _ => body Group s'
            | None, Some s', _ => body (Lookahead false) s'
            | None, None, Some s' => body (Lookahead true) s'
            | None, None, None =>
                match strip "?<=" rest, strip "?<!" rest, strip "?<" rest, strip "?" rest with
                | Some _, _, _, _ | None, Some _, _, _ => inr "Lookbehinds are not supported"
                | None, None, Some s', _ =>
                    match skipName s' with
                    | Some s'' => body Group s''
                    | None => inr "Invalid capture group name"
                    end
                | None, None, None, Some _ => inr "Invalid group"
                | None, None, None, None => body Group rest
                end
            end
          else if isChar c "[" then parseBracket rest
          else if isChar c "\" then parseEscape rest
          else if isChar c "*" || isChar c "+" || isChar c "?" then inr "Nothing to repeat"
          else if isChar c "{" then
            match parseBraces rest with
            | inl (Some _) => inr "Nothing to repeat"
            | inl None => inl (Char c, rest)
            | inr e => inr e
            end
          else if isChar c "." then inl (AnyChar, rest)
          else if isChar c "^" then inl (LineStart, rest)
          else if isChar c "$" then inl (LineEnd, rest)
          else inl (Char c, rest)
      end
  end.

Fixpoint noRepeats (l : list ascii) : bool :=
  match l with
  | [] => true
  | c :: l' => negb (inClass l' c) && noRepeats l'
  end.

Definition validFlags (fl : list ascii) : bool :=
  forallb (inClass engineFlagOrder) fl && noRepeats fl.

Definition compile : Engine := fun pat fl =>
  if negb (validFlags (list_ascii_of_string fl)) then
    inr ("Invalid flags supplied to RegExp constructor '" ++ fl ++ "'")%string
  else
    let s := list_ascii_of_string pat in
    match parseAlt (4 * length s + 4) s with
    | inr e => inr ("Invalid regular expression: /" ++ pat ++ "/: " ++ e)%string
    | inl (r, []) =>
        let o := {| optIgnoreCase := hasFlag fl "i"; optMultiline := hasFlag fl "m";
                    optDotAll := hasFlag fl "s" |} in
        inl {| escapedSource := if String.eqb pat "" then "(?:)" else pat;
               matchFrom := search o r |}
    | inl (_, _ :: _) =>
        inr ("Invalid regular expression: /" ++ pat ++ "/: Unmatched ')'")%string
    end.

End RefEngine.

(** ** Vocabulary of the statements *)

(** [represents x z]: the number [x] is the integer [z]. *)
Definition represents (x : number) (z : Z) : Prop :=
  match x with
  | Finite q => (q == inject_Z z)%Q
  | _ => False
  end.

(** Escaped text as the specification words it: every special character is
    prefixed by a backslash, every other character is kept. *)
Inductive Escaped : string -> string -> Prop :=
| Escaped_end : Escaped "" ""
| Escaped_special : forall c text out,
    In c specialChars -> Escaped text out ->
    Escaped (String c text) (String "\" (String c out))
| Escaped_plain : forall c text out,
    ~ In c specialChars -> Escaped text out ->
    Escaped (String c text) (String c out).

(** The four flag methods, for statements about sequences of calls to them. *)
Inductive flagMethod : Type := FIgnoreCase | FMultiline | FDotAll | FUnicode.

Definition flagCode (f : flagMethod) : string :=
  match f with
  | FIgnoreCase => "i"
  | FMultiline => "m"
  | FDotAll => "s"
  | FUnicode => "u"
  end.

Definition callFlag (f : flagMethod) : IrregularExpression -> IrregularExpression :=
  match f with
  | FIgnoreCase => ignoreCase
  | FMultiline => multiline
  | FDotAll => dotAll
  | FUnicode => unicode
  end.

Definition callFlags (calls : list flagMethod) (b : IrregularExpression)
  : IrregularExpression :=
  fold_left (fun acc f => callFlag f acc) calls b.

(** The members of a list in the order of their first occurrence. *)
Definition firstOccurrences (l : list string) : list string :=
  rev (nodup string_dec (rev l)).

(** The canonical rendering of a flag set, in the specification's words:
    global, case-insensitive, multiline, dotAll, unicode. *)
Definition canonicalOrder : list string := ["g"; "i"; "m"; "s"; "u"].

Definition canonicalFlags (fs : list string) : string :=
  join_empty (filter (Set_has fs) canonicalOrder).

(** The flag set of a well-formed builder. *)
Definition FlagsOk (b : IrregularExpression) : Prop :=
  In "g" (flags b) /\ NoDup (flags b).

(** A stored cap is a positive integer. *)
Definition CapOk (b : IrregularExpression) : Prop :=
  forall c, maxRun b = Some c ->
            Number_isInteger c = true /\ number_leb c (ofZ 0) = false.

(** The engine compiles the match-nothing pattern, and it matches nothing. *)
Definition SentinelMatchesNothing (engine : Engine) : Prop :=
  exists c, engine sentinelPattern "" = inl c
            /\ forall input start, matchFrom c input start = None.

(** [Successive r input start ms]: [ms] are matches found one after the
    other, the first search starting at [start] and each later one at the end
    of the match before it. *)
Inductive Successive (r : RegExp) (input : string) : nat -> list MatchResult -> Prop :=
| Successive_nil : forall start, Successive r input start []
| Successive_cons : forall start m ms,
    start <= String.length input ->
    matchFrom (compiled r) input start = Some m ->
    Successive r input (mEnd m) ms ->
    Successive r input start (m :: ms).

(** Where the search after the matches [ms] starts. *)
Definition endOf (start : nat) (ms : list MatchResult) : nat :=
  last (map mEnd ms) start.

(** No match is found from [start] on. *)
Definition NoMoreFrom (r : RegExp) (input : string) (start : nat) : Prop :=
  String.length input < start \/ matchFrom (compiled r) input start = None.

(** What a call may do to the flag set and the cap of the receiver: the set
    only grows at its end, stays free of repetitions, and a stored cap stays
    a positive integer. *)
Definition Grows (b b' : IrregularExpression) : Prop :=
  (exists extra, flags b' = flags b ++ extra)
  /\ (NoDup (flags b) -> NoDup (flags b'))
  /\ (CapOk b -> CapOk b').

(** [combine] from a given accumulator. *)
Definition combineFrom (acc : IrregularExpression) (bs : list IrregularExpression)
  : IrregularExpression :=
  fold_left (fun combined expr =>
               addFlags (flags expr) (appendPattern (getPattern expr) combined))
            bs acc.

(** The expressions [build] returns: global ones, and the flagless one that
    matches nothing. *)
Definition Searches (r : RegExp) : Prop :=
  isGlobal r = true \/ forall input start, matchFrom (compiled r) input start = None.

(** Every match the expression finds on the input starts at or after the
    position searched from and has a non-empty text. *)
Definition NonEmptyForward (r : RegExp) (input : string) : Prop :=
  forall start m,
    matchFrom (compiled r) input start = Some m ->
    start <= mIndex m /\ 0 < String.length (mText m).

(** The matches of a list lie strictly from left to right: a later one
    starts after the start of an earlier one, and not before its end. *)
Definition StrictlyLeftToRight (ms : list MatchResult) : Prop :=
  forall i j mi mj,
    i < j -> nth_error ms i = Some mi -> nth_error ms j = Some mj ->
    mIndex mi < mIndex mj /\ mEnd mi <= mIndex mj.

(** The messages of the validation failures of the fluent methods. *)
Definition validationMessages : list string :=
  [ "runTimes expects a positive integer.";
    "exactly expects a non-negative integer.";
    "atLeast expects a non-negative integer.";
    "between expects two non-negative integers where m >= n.";
    "backreference expects a positive integer representing the group number.";
    "namedBackreference expects a valid group name consisting of letters, numbers, and underscores, not starting with a number." ].

(** What a call may do to the pattern and the event log of the receiver:
    append a fragment, and append validation messages. *)
Definition Appends (b b' : IrregularExpression) : Prop :=
  (exists fragment, pattern b' = (pattern b ++ fragment)%string)
  /\ (exists extra, events b' = events b ++ extra
                    /\ Forall (fun message => In message validationMessages) extra).

(** One chain of calls after another. *)
Fixpoint chainApp (c1 c2 : chain) : chain :=
  match c1 with
  | Done => c2
  | Call o rest => Call o (chainApp rest c2)
  end.

(** Reading escaped text back: a backslash stands for the character after
    it. *)
Fixpoint unescape (s : string) : string :=
  match s with
  | EmptyString => EmptyString
  | String c rest =>
      if Ascii.eqb c "\" then
        match rest with
        | String d rest' => String d (unescape rest')
        | EmptyString => EmptyString
        end
      else String c (unescape rest)
  end.

(** How many characters of a text belong to a class. *)
Fixpoint countIn (cls : list ascii) (s : string) : nat :=
  match s with
  | EmptyString => 0
  | String c rest => (if inClass cls c then 1 else 0) + countIn cls rest
  end.

(** The expression that matches a text character by character. *)
Fixpoint literalRegex (text : string) : RefEngine.regex :=
  match text with
  | EmptyString => RefEngine.Empty
  | String c rest => RefEngine.Seq (RefEngine.Char c) (literalRegex rest)
  end.

(** ** Numbers *)

Lemma Qred_inject_Z (z : Z) : Qred (inject_Z z) = inject_Z z.
Proof.
  assert (H : Qred (Qred (inject_Z z)) = Qred (inject_Z z))
    by (apply Qred_complete, Qred_correct).
  pose proof (Qred_correct (inject_Z z)) as Hc.
  pose proof (gcd_Qred (inject_Z z)) as Hg.
  destruct (Qred (inject_Z z)) as [n d] eqn:E.
  unfold Qeq, inject_Z in Hc; simpl in Hc, Hg.
  rewrite Z.mul_1_r in Hc. subst n.
  rewrite Z.gcd_comm, (Z.mul_comm z), Z.gcd_mul_diag_l in Hg by lia.
  assert (d = 1%positive) by lia. subst d.
  unfold inject_Z. f_equal. lia.
Qed.

Lemma represents_isInteger (x : number) (z : Z) :
  represents x z -> Number_isInteger x = true.
Proof.
  destruct x as [q| | |]; simpl; try contradiction.
  intros H. rewrite (Qred_complete _ _ H), Qred_inject_Z. reflexivity.
Qed.

Lemma isInteger_represents (x : number) :
  Number_isInteger x = true -> exists z, represents x z.
Proof.
  destruct x as [q| | |]; simpl; try discriminate.
  intros H. exists (Qnum (Qred q)).
  rewrite <- (Qred_correct q) at 1.
  destruct (Qred q) as [n d]; simpl in *.
  destruct d; try discriminate.
  unfold Qeq, inject_Z; simpl. reflexivity.
Qed.

Lemma represents_toString (x : number) (z : Z) :
  represents x z -> Number_toString x = Z_to_string z.
Proof.
  destruct x as [q| | |]; simpl; try contradiction.
  intros H. now rewrite (Qfloor_comp _ _ H), Qfloor_Z.
Qed.

Lemma represents_ltb (x y : number) (a b : Z) :
  represents x a -> represents y b -> number_ltb x y = (a <? b)%Z.
Proof.
  destruct x as [p| | |], y as [q| | |]; simpl; try contradiction.
  intros Hp Hq. rewrite (Qleb_comp _ _ Hq _ _ Hp).
  destruct (Qle_bool (inject_Z b) (inject_Z a)) eqn:E; simpl; symmetry.
  - apply Qle_bool_iff in E. rewrite <- Zle_Qle in E. apply Z.ltb_ge. exact E.
  - apply Z.ltb_lt. destruct (Z.lt_ge_cases a b) as [|Hge]; [assumption|].
    rewrite Zle_Qle in Hge. apply Qle_bool_iff in Hge. congruence.
Qed.

Lemma represents_leb (x y : number) (a b : Z) :
  represents x a -> represents y b -> number_leb x y = (a <=? b)%Z.
Proof.
  destruct x as [p| | |], y as [q| | |]; simpl; try contradiction.
  intros Hp Hq. rewrite (Qleb_comp _ _ Hp _ _ Hq).
  destruct (Qle_bool (inject_Z a) (inject_Z b)) eqn:E; symmetry.
  - apply Qle_bool_iff in E. rewrite <- Zle_Qle in E. apply Z.leb_le. exact E.
  - apply Z.leb_gt. destruct (Z.lt_ge_cases b a) as [|Hge]; [assumption|].
    rewrite Zle_Qle in Hge. apply Qle_bool_iff in Hge. congruence.
Qed.

Lemma represents_ofZ (z : Z) : represents (ofZ z) z.
Proof. simpl. reflexivity. Qed.

(** ** Quantifiers *)

Lemma not_nonnegative_integer (x : number) :
  (forall n, represents x n -> (n < 0)%Z) ->
  negb (Number_isInteger x) || number_ltb x (ofZ 0) = true.
Proof.
  intros H. destruct (Number_isInteger x) eqn:E; [|reflexivity].
  destruct (isInteger_represents x E) as [z Hz].
  rewrite (represents_ltb x (ofZ 0) z 0 Hz (represents_ofZ 0)).
  simpl. apply Z.ltb_lt. auto.
Qed.

Lemma nonnegative_integer (x : number) (n : Z) :
  represents x n -> (0 <= n)%Z ->
  negb (Number_isInteger x) || number_ltb x (ofZ 0) = false.
Proof.
  intros Hx Hn. rewrite (represents_isInteger x n Hx).
  rewrite (represents_ltb x (ofZ 0) n 0 Hx (represents_ofZ 0)).
  simpl. apply Z.ltb_ge. exact Hn.
Qed.

(** C4.  For every integer [n >= 0] (and every integer [m >= n]), [exactly],
    [atLeast] and [between] append exactly [{n}], [{n,}] and [{n,m}] to the
    pattern and change nothing else; for every argument that is not of that
    kind (not an integer, negative, or [m < n]) the pattern stays as it is and
    one failure event with the method's own message is fired.  (Integers are
    taken below 2^53, where a number prints as its decimal numeral.) *)
Theorem quantifier_fragments (b : IrregularExpression) :
  (forall x n, represents x n -> (0 <= n < 2 ^ 53)%Z ->
     exactly x b
     = {| pattern := pattern b ++ "{" ++ Z_to_string n ++ "}"; flags := flags b;
          maxRun := maxRun b; events := events b |}
     /\ atLeast x b
        = {| pattern := pattern b ++ "{" ++ Z_to_string n ++ ",}"; flags := flags b;
             maxRun := maxRun b; events := events b |})
  /\ (forall x y n m, represents x n -> represents y m ->
                      (0 <= n)%Z -> (n <= m < 2 ^ 53)%Z ->
        between x y b
        = {| pattern := pattern b ++ "{" ++ Z_to_string n ++ "," ++ Z_to_string m ++ "}";
             flags := flags b; maxRun := maxRun b; events := events b |})
  /\ (forall x, (forall n, represents x n -> (n < 0)%Z) ->
        exactly x b
        = {| pattern := pattern b; flags := flags b; maxRun := maxRun b;
             events := events b ++ ["exactly expects a non-negative integer."] |}
        /\ atLeast x b
           = {| pattern := pattern b; flags := flags b; maxRun := maxRun b;
                events := events b ++ ["atLeast expects a non-negative integer."] |})
  /\ (forall x y,
        (forall n m, represents x n -> represents y m -> (n < 0 \/ m < n)%Z) ->
        between x y b
        = {| pattern := pattern b; flags := flags b; maxRun := maxRun b;
             events := events b
                       ++ ["between expects two non-negative integers where m >= n."] |}).
Proof.
  repeat split.
  - intros. unfold exactly. rewrite (nonnegative_integer x n) by (assumption || lia).
    unfold appendPattern. now rewrite (represents_toString x n).
  - unfold atLeast. rewrite (nonnegative_integer x n) by (assumption || lia).
    unfold appendPattern. now rewrite (represents_toString x n).
  - intros x y n m Hx Hy Hn Hm. unfold between.
    rewrite (represents_isInteger x n Hx), (represents_isInteger y m Hy).
    rewrite (represents_ltb x (ofZ 0) n 0 Hx (represents_ofZ 0)).
    rewrite (represents_ltb y x m n Hy Hx).
    replace (n <? 0)%Z with false by (symmetry; apply Z.ltb_ge; lia).
    replace (m <? n)%Z with false by (symmetry; apply Z.ltb_ge; lia).
    simpl. unfold appendPattern.
    now rewrite (represents_toString x n), (represents_toString y m).
  - unfold exactly. now rewrite not_nonnegative_integer.
  - unfold atLeast. now rewrite not_nonnegative_integer.
  - intros x y H. unfold between.
    destruct (Number_isInteger x) eqn:Ex; [|reflexivity].
    destruct (Number_isInteger y) eqn:Ey; [|reflexivity].
    destruct (isInteger_represents x Ex) as [n Hn].
    destruct (isInteger_represents y Ey) as [m Hm].
    rewrite (represents_ltb x (ofZ 0) n 0 Hn (represents_ofZ 0)).
    rewrite (represents_ltb y x m n Hm Hn).
    destruct (H n m Hn Hm) as [Hlt|Hlt].
    + apply Z.ltb_lt in Hlt. rewrite Hlt. reflexivity.
    + apply Z.ltb_lt in Hlt. rewrite Hlt. simpl. now rewrite orb_true_r.
Qed.

Lemma represents_ofZ_inv (a n : Z) : represents (ofZ a) n -> n = a.
Proof. simpl. intros H. symmetry. now apply inject_Z_injective. Qed.

Lemma quantifier_fragments_witness :
  pattern (exactly (ofZ 3) (digit match_)) = "\d{3}"
  /\ pattern (atLeast (Finite (4 # 2)) (digit match_)) = "\d{2,}"
  /\ pattern (between (ofZ 2) (ofZ 4) (digit match_)) = "\d{2,4}"
  /\ exactly (ofZ (-1)) match_
     = emitError "exactly expects a non-negative integer." match_
  /\ atLeast (Finite (5 # 2)) match_
     = emitError "atLeast expects a non-negative integer." match_
  /\ between (ofZ 3) (ofZ 1) match_
     = emitError "between expects two non-negative integers where m >= n." match_.
Proof.
  destruct (quantifier_fragments (digit match_)) as (Hv & Hb & _ & _).
  destruct (quantifier_fragments match_) as (_ & _ & Hi & Hib).
  refine (conj _ (conj _ (conj _ (conj _ (conj _ _))))).
  - rewrite (proj1 (Hv (ofZ 3) 3%Z (represents_ofZ 3) ltac:(lia))). reflexivity.
  - assert (H : represents (Finite (4 # 2)) 2%Z) by reflexivity.
    rewrite (proj2 (Hv (Finite (4 # 2)) 2%Z H ltac:(lia))). reflexivity.
  - rewrite (Hb (ofZ 2) (ofZ 4) 2%Z 4%Z (represents_ofZ 2) (represents_ofZ 4)
               ltac:(lia) ltac:(lia)).
    reflexivity.
  - destruct (Hi (ofZ (-1))) as [E _]; [|rewrite E; reflexivity].
    intros n Hn. apply represents_ofZ_inv in Hn. lia.
  - destruct (Hi (Finite (5 # 2))) as [_ E]; [|rewrite E; reflexivity].
    intros n Hn. unfold represents, Qeq in Hn. simpl in Hn. lia.
  - rewrite (Hib (ofZ 3) (ofZ 1)); [reflexivity|].
    intros n m Hn Hm. apply represents_ofZ_inv in Hn, Hm. lia.
Defined.

(** ** Escaping *)

Lemma inClass_In (cls : list ascii) (c : ascii) : inClass cls c = true <-> In c cls.
Proof.
  unfold inClass. rewrite existsb_exists. split.
  - intros (x & Hx & E). apply Ascii.eqb_eq in E. now subst.
  - intros H. exists c. split; [assumption | apply Ascii.eqb_refl].
Qed.

Lemma escape_one (c : ascii) :
  getSubstitution (String c "") "\$&" = String "\" (String c "").
Proof. reflexivity. Qed.

Lemma escapeRegExp_cons (c : ascii) (text : string) :
  escapeRegExp (String c text)
  = if inClass specialChars c then String "\" (String c (escapeRegExp text))
    else String c (escapeRegExp text).
Proof.
  unfold escapeRegExp. cbn [replaceClassGlobal].
  destruct (inClass specialChars c); [rewrite escape_one|]; reflexivity.
Qed.

Lemma escapeRegExp_Escaped (text : string) : Escaped text (escapeRegExp text).
Proof.
  induction text as [|c text IH]; [constructor|].
  rewrite escapeRegExp_cons. destruct (inClass specialChars c) eqn:E.
  - apply Escaped_special; [now apply inClass_In | exact IH].
  - apply Escaped_plain; [|exact IH].
    intros H. apply inClass_In in H. congruence.
Qed.

Lemma Escaped_functional (text out : string) :
  Escaped text out -> out = escapeRegExp text.
Proof.
  induction 1 as [|c text out Hc _ IH|c text out Hc _ IH];
    [reflexivity| |]; rewrite escapeRegExp_cons.
  - apply inClass_In in Hc. rewrite Hc. now subst.
  - destruct (inClass specialChars c) eqn:E; [|now subst].
    apply inClass_In in E. contradiction.
Qed.

(** C8.  For every string [text], [literal(text)] appends to the pattern the
    text in which each of the characters [. * + ? ^ $ { } ( ) | [ ] \] is
    prefixed by a backslash and every other character is left as it is;
    nothing else of the builder changes. *)
Theorem literal_escapes_metacharacters (text : string) (b : IrregularExpression) :
  literal text b
  = {| pattern := pattern b ++ escapeRegExp text; flags := flags b;
       maxRun := maxRun b; events := events b |}
  /\ Escaped text (escapeRegExp text)
  /\ (forall out, Escaped text out -> out = escapeRegExp text)
  /\ (forall c, In c specialChars <->
        In c (list_ascii_of_string ".*+?^${}()|[]\")).
Proof.
  split; [reflexivity|]. split; [apply escapeRegExp_Escaped|].
  split; [apply Escaped_functional|]. intros c. reflexivity.
Qed.

Example literal_example :
  pattern (literal "a.b*c\d[e] (1+1=2)?" match_) = "a\.b\*c\\d\[e\] \(1\+1=2\)\?".
Proof. reflexivity. Qed.

(** ** Strings and sets *)

Lemma string_app_nil_r (s : string) : (s ++ "")%string = s.
Proof. induction s as [|c s IH]; simpl; [reflexivity | now rewrite IH]. Qed.

Lemma string_app_assoc (s t u : string) : ((s ++ t) ++ u = s ++ t ++ u)%string.
Proof. induction s as [|c s IH]; simpl; [reflexivity | now rewrite IH]. Qed.

Lemma join_empty_cons (x : string) (xs : list string) :
  join_empty (x :: xs) = (x ++ join_empty xs)%string.
Proof.
  unfold join_empty. destruct xs as [|y ys]; simpl.
  - now rewrite string_app_nil_r.
  - reflexivity.
Qed.

Lemma Set_has_In (s : list string) (x : string) : Set_has s x = true <-> In x s.
Proof.
  unfold Set_has. rewrite existsb_exists. split.
  - intros (y & Hy & E). apply String.eqb_eq in E. now subst.
  - intros H. exists x. split; [assumption | apply String.eqb_refl].
Qed.

Lemma Set_has_false (s : list string) (x : string) : Set_has s x = false <-> ~ In x s.
Proof.
  rewrite <- Set_has_In. destruct (Set_has s x); split; congruence.
Qed.

Lemma Set_add_In (s : list string) (x f : string) :
  In f (Set_add s x) <-> In f s \/ f = x.
Proof.
  unfold Set_add. destruct (Set_has s x) eqn:E.
  - apply Set_has_In in E. split; [auto|]. intros [H| ->]; assumption.
  - rewrite in_app_iff. simpl. split; intros [H|H]; auto.
    + destruct H as [H|[]]; auto.
Qed.

Lemma Set_add_NoDup (s : list string) (x : string) : NoDup s -> NoDup (Set_add s x).
Proof.
  intros H. unfold Set_add. destruct (Set_has s x) eqn:E; [assumption|].
  apply Set_has_false in E. apply NoDup_app; [assumption | repeat constructor; simpl; tauto |].
  intros a Ha [<-|[]]. contradiction.
Qed.

Lemma Set_add_extends (s : list string) (x : string) :
  exists extra, Set_add s x = s ++ extra.
Proof.
  unfold Set_add. destruct (Set_has s x).
  - exists []. now rewrite app_nil_r.
  - now exists [x].
Qed.

Lemma Set_has_add (s : list string) (x : string) : Set_has (Set_add s x) x = true.
Proof. apply Set_has_In, Set_add_In. now right. Qed.

Lemma fold_Set_add_In (l s : list string) (f : string) :
  In f (fold_left Set_add l s) <-> In f s \/ In f l.
Proof.
  revert s. induction l as [|x l IH]; intros s; simpl; [tauto|].
  rewrite IH, Set_add_In. intuition auto.
Qed.

Lemma fold_Set_add_NoDup (l s : list string) :
  NoDup s -> NoDup (fold_left Set_add l s).
Proof.
  revert s. induction l as [|x l IH]; intros s H; simpl; [assumption|].
  apply IH, Set_add_NoDup, H.
Qed.

(** ** What the calls keep *)

Lemma grows_refl (b : IrregularExpression) : Grows b b.
Proof.
  split; [exists []; now rewrite app_nil_r | split; auto].
Qed.

Lemma grows_trans (b1 b2 b3 : IrregularExpression) :
  Grows b1 b2 -> Grows b2 b3 -> Grows b1 b3.
Proof.
  intros ((e1 & H1) & N1 & C1) ((e2 & H2) & N2 & C2).
  split; [|split; auto].
  exists (e1 ++ e2). now rewrite H2, H1, app_assoc.
Qed.

Lemma grows_same (b b' : IrregularExpression) :
  flags b' = flags b -> maxRun b' = maxRun b -> Grows b b'.
Proof.
  intros Hf Hm. unfold Grows, CapOk. rewrite Hf, Hm.
  split; [exists []; now rewrite app_nil_r | split; auto].
Qed.

Lemma grows_addFlag (f : string) (b : IrregularExpression) : Grows b (addFlag f b).
Proof.
  split; [|split]; simpl.
  - apply Set_add_extends.
  - apply Set_add_NoDup.
  - auto.
Qed.

Lemma grows_flag (f : string) (b : IrregularExpression) :
  Grows b (if negb (Set_has (flags b) f) then addFlag f b else b).
Proof.
  destruct (negb (Set_has (flags b) f)); [apply grows_addFlag | apply grows_refl].
Qed.

Lemma grows_runTimes (count : number) (b : IrregularExpression) :
  Grows b (runTimes count b).
Proof.
  unfold runTimes.
  destruct (number_leb count (ofZ 0) || negb (Number_isInteger count)) eqn:E.
  - now apply grows_same.
  - apply orb_false_elim in E. destruct E as [E1 E2].
    apply negb_false_iff in E2.
    split; [|split]; simpl; auto.
    + exists []. now rewrite app_nil_r.
    + intros _ c [= <-]. now split.
Qed.

Ltac same_flags :=
  apply grows_same;
  repeat match goal with
         | |- context [if ?c then _ else _] => destruct c
         end; reflexivity.

Lemma runOp_runChain_grow :
  (forall o b, Grows b (runOp o b)) /\ (forall c b, Grows b (runChain c b)).
Proof.
  assert (H : forall o, (fun o => forall b, Grows b (runOp o b)) o).
  { apply (op_chain_ind (fun o => forall b, Grows b (runOp o b))
                        (fun c => forall b, Grows b (runChain c b)));
      intros; cbn [runOp runChain];
      try (apply grows_flag); try (apply grows_runTimes);
      try (unfold exactly, atLeast, between, backreference, namedBackreference; same_flags).
    - (* group: the callback runs on the receiver *)
      unfold group. eapply grows_trans; [|now apply grows_same].
      eapply grows_trans; [|apply H]. now apply grows_same.
    - eapply grows_trans; [apply H | apply H0]. }
  split; [exact H|].
  induction c as [|o rest IH]; intros b; cbn [runChain].
  - apply grows_refl.
  - eapply grows_trans; [apply H | apply IH].
Qed.

(** ** combine *)

Lemma addFlags_fields (fs : list string) (b : IrregularExpression) :
  pattern (addFlags fs b) = pattern b
  /\ flags (addFlags fs b) = fold_left Set_add fs (flags b)
  /\ maxRun (addFlags fs b) = maxRun b
  /\ events (addFlags fs b) = events b.
Proof.
  unfold addFlags. revert b.
  induction fs as [|f fs IH]; intros b; simpl; [auto|].
  destruct (IH (addFlag f b)) as (Hp & Hf & Hm & He).
  rewrite Hp, Hf, Hm, He. auto.
Qed.

Lemma combineFrom_fields (bs : list IrregularExpression) (acc : IrregularExpression) :
  pattern (combineFrom acc bs) = (pattern acc ++ join_empty (map getPattern bs))%string
  /\ flags (combineFrom acc bs) = fold_left Set_add (concat (map flags bs)) (flags acc)
  /\ maxRun (combineFrom acc bs) = maxRun acc
  /\ events (combineFrom acc bs) = events acc.
Proof.
  unfold combineFrom. revert acc.
  induction bs as [|b bs IH]; intros acc; cbn [fold_left map concat].
  - unfold join_empty. simpl. now rewrite string_app_nil_r.
  - destruct (IH (addFlags (flags b) (appendPattern (getPattern b) acc)))
      as (Hp & Hf & Hm & He).
    destruct (addFlags_fields (flags b) (appendPattern (getPattern b) acc))
      as (Hp' & Hf' & Hm' & He').
    rewrite Hp, Hf, Hm, He, Hp', Hf', Hm', He'. simpl.
    rewrite join_empty_cons, fold_left_app, string_app_assoc. auto.
Qed.

Lemma combine_fields (bs : list IrregularExpression) :
  pattern (combine bs) = join_empty (map getPattern bs)
  /\ flags (combine bs) = fold_left Set_add (concat (map flags bs)) ["g"]
  /\ maxRun (combine bs) = None
  /\ events (combine bs) = [].
Proof. exact (combineFrom_fields bs new_IrregularExpression). Qed.

Lemma combine_flags_In (bs : list IrregularExpression) (f : string) :
  In f (flags (combine bs)) <-> f = "g" \/ exists b, In b bs /\ In f (flags b).
Proof.
  destruct (combine_fields bs) as (_ & -> & _).
  rewrite fold_Set_add_In, in_concat. simpl. split.
  - intros [[<-|[]]|(l & Hl & Hf)]; [now left|right].
    apply in_map_iff in Hl. destruct Hl as (b & <- & Hb). now exists b.
  - intros [->|(b & Hb & Hf)]; [now left; left|right].
    exists (flags b). split; [now apply in_map | assumption].
Qed.

Lemma combine_flags_NoDup (bs : list IrregularExpression) : NoDup (flags (combine bs)).
Proof.
  destruct (combine_fields bs) as (_ & -> & _).
  apply fold_Set_add_NoDup. repeat constructor. simpl. tauto.
Qed.

(** ** Every builder a program holds is well formed *)

Lemma reachable_ok (b : IrregularExpression) : Reachable b -> FlagsOk b /\ CapOk b.
Proof.
  induction 1 as [|c b _ [[Hg Hn] Hc]|bs _ _].
  - split; [split|]; simpl; auto.
    + repeat constructor. simpl. tauto.
    + intros x [=].
  - destruct (proj2 runOp_runChain_grow c b) as ((extra & E) & N & C).
    split; [split|]; auto. rewrite E. apply in_or_app. now left.
  - split; [split|].
    + apply combine_flags_In. now left.
    + apply combine_flags_NoDup.
    + intros x Hx. destruct (combine_fields bs) as (_ & _ & Hm & _).
      rewrite Hm in Hx. discriminate.
Qed.

Lemma flag_method_twice (f : string) (b : IrregularExpression) :
  let once := if negb (Set_has (flags b) f) then addFlag f b else b in
  (if negb (Set_has (flags once) f) then addFlag f once else once) = once.
Proof.
  simpl. destruct (Set_has (flags b) f) eqn:E; simpl.
  - now rewrite E.
  - now rewrite Set_has_add.
Qed.

Lemma build_keeps_fields (engine : Engine) (b : IrregularExpression) :
  let b' := snd (build engine b) in
  pattern b' = pattern b /\ flags b' = flags b /\ maxRun b' = maxRun b.
Proof.
  unfold build. destruct (new_RegExp engine (pattern b) (join_empty (flags b)));
    simpl; auto.
Qed.

Lemma terminal_keep_flags (engine : Engine) (b : IrregularExpression) :
  flags (snd (build engine b)) = flags b
  /\ (forall input, flags (snd (test engine input b)) = flags b)
  /\ (forall fuel input, flags (snd (execute engine fuel input b)) = flags b)
  /\ (forall (R : Type) (engineReplace : RegExp -> string -> R -> string) input replacement,
        flags (snd (replace engine engineReplace input replacement b)) = flags b).
Proof.
  pose proof (build_keeps_fields engine b) as (_ & Hb & _).
  repeat split; [exact Hb| | |]; intros;
    unfold test, execute, replace;
    destruct (build engine b) as [[r|message] b']; simpl in *; exact Hb.
Qed.

(** C9.  A builder is constructed with the global flag in its flag set
    (and nothing else); no chain of calls, however nested, removes a flag
    from the set of its receiver, and neither do [build], [test], [execute]
    and [replace]; every builder a program can hold has the global flag in a
    flag set without repetitions; and a flag method called again leaves the
    builder as the first call left it. *)
Theorem global_flag_kept_without_duplicates :
  flags match_ = ["g"]
  /\ (forall c b f, In f (flags b) -> In f (flags (runChain c b)))
  /\ (forall engine b,
        flags (snd (build engine b)) = flags b
        /\ (forall input, flags (snd (test engine input b)) = flags b)
        /\ (forall fuel input, flags (snd (execute engine fuel input b)) = flags b)
        /\ (forall (R : Type) (engineReplace : RegExp -> string -> R -> string)
                   input replacement,
              flags (snd (replace engine engineReplace input replacement b)) = flags b))
  /\ (forall b, Reachable b -> In "g" (flags b) /\ NoDup (flags b))
  /\ (forall b,
        ignoreCase (ignoreCase b) = ignoreCase b
        /\ multiline (multiline b) = multiline b
        /\ dotAll (dotAll b) = dotAll b
        /\ unicode (unicode b) = unicode b).
Proof.
  split; [reflexivity|]. split; [|split; [|split]].
  - intros c b f Hf.
    destruct (proj2 runOp_runChain_grow c b) as ((extra & E) & _).
    rewrite E. apply in_or_app. now left.
  - apply terminal_keep_flags.
  - intros b Hb. exact (proj1 (reachable_ok b Hb)).
  - intros b. repeat split; apply flag_method_twice.
Qed.

Lemma global_flag_kept_without_duplicates_witness :
  let b := runChain (Call OIgnoreCase (Call (OLiteral "test") (Call OIgnoreCase
             (Call OMultiline (Call OIgnoreCase Done))))) match_ in
  flags b = ["g"; "i"; "m"] /\ In "g" (flags b) /\ NoDup (flags b).
Proof.
  split; [reflexivity|].
  apply (proj1 (proj2 (proj2 (proj2 global_flag_kept_without_duplicates)))).
  apply R_chain, R_match.
Defined.

(** C7, as the code has it.  For every list of builders, [combine] makes a
    builder whose pattern is the concatenation of the arguments' patterns in
    argument order with no separator, and whose flag set, free of repetitions,
    holds the global flag of the new builder together with every flag of
    every argument; when at least one argument is given and the arguments
    have the global flag, that is the union of the arguments' flag sets. *)
Theorem combine_concatenates_and_unions (bs : list IrregularExpression) :
  pattern (combine bs) = join_empty (map getPattern bs)
  /\ (forall f, In f (flags (combine bs))
                <-> f = "g" \/ exists b, In b bs /\ In f (flags b))
  /\ NoDup (flags (combine bs))
  /\ (bs <> [] -> (forall b, In b bs -> In "g" (flags b)) ->
      forall f, In f (flags (combine bs)) <-> exists b, In b bs /\ In f (flags b)).
Proof.
  split; [apply combine_fields|]. split; [apply combine_flags_In|].
  split; [apply combine_flags_NoDup|].
  intros Hne Hg f. rewrite combine_flags_In. split.
  - intros [->|H]; [|exact H].
    destruct bs as [|b bs]; [contradiction|].
    exists b. split; [now left | apply Hg; now left].
  - now right.
Qed.

Lemma combine_concatenates_and_unions_witness :
  let b1 := ignoreCase (literal "cat" match_) in
  let b2 := multiline (literal "dog" match_) in
  pattern (combine [b1; b2]) = "catdog"
  /\ flags (combine [b1; b2]) = ["g"; "i"; "m"]
  /\ (forall f, In f (flags (combine [b1; b2]))
                <-> exists b, In b [b1; b2] /\ In f (flags b)).
Proof.
  intros b1 b2. split; [reflexivity|]. split; [reflexivity|].
  apply (proj2 (proj2 (proj2 (combine_concatenates_and_unions [b1; b2])))).
  - discriminate.
  - intros b [<-|[<-|[]]]; simpl; auto.
Defined.

(** C7 as the specification words it fails for the empty argument list: the
    new builder has the global flag, the union of no flag sets has not. *)
Lemma combine_of_nothing_has_global :
  ~ (forall bs f, In f (flags (combine bs)) <-> exists b, In b bs /\ In f (flags b)).
Proof.
  intros H. destruct (proj1 (H [] "g")) as (b & [] & _).
  simpl. now left.
Qed.

(** C10.  For every list of builders, the builder [combine] returns has no
    result cap: its cap is the unset value a new builder starts with,
    whatever caps the arguments were given by [runTimes]; of the arguments
    only patterns and flags are carried over (the event log is empty too). *)
Theorem combine_has_no_result_cap (bs : list IrregularExpression) :
  maxRun (combine bs) = None
  /\ maxRun (combine bs) = maxRun match_
  /\ events (combine bs) = [].
Proof.
  destruct (combine_fields bs) as (_ & _ & Hm & He).
  rewrite Hm, He. auto.
Qed.

Example combine_capped_arguments :
  let capped := runTimes (ofZ 2) (oneOrMore (digit match_)) in
  maxRun capped = Some (ofZ 2) /\ maxRun (combine [capped; capped]) = None.
Proof. split; reflexivity. Qed.

(** ** The flag string *)

Lemma callFlag_fields (f : flagMethod) (b : IrregularExpression) :
  pattern (callFlag f b) = pattern b
  /\ flags (callFlag f b) = Set_add (flags b) (flagCode f).
Proof.
  destruct f; simpl; unfold ignoreCase, multiline, dotAll, unicode, Set_add;
    match goal with
    | |- context [Set_has ?s ?x] => destruct (Set_has s x) eqn:E
    end; simpl; unfold Set_add; rewrite ?E; auto.
Qed.

Lemma callFlags_fields (calls : list flagMethod) (b : IrregularExpression) :
  pattern (callFlags calls b) = pattern b
  /\ flags (callFlags calls b) = fold_left Set_add (map flagCode calls) (flags b).
Proof.
  unfold callFlags. revert b.
  induction calls as [|f calls IH]; intros b; simpl; [auto|].
  destruct (IH (callFlag f b)) as [Hp Hf].
  destruct (callFlag_fields f b) as [Hp' Hf'].
  rewrite Hp, Hf, Hp', Hf'. auto.
Qed.

Lemma firstOccurrences_In (l : list string) (x : string) :
  In x (firstOccurrences l) <-> In x l.
Proof.
  unfold firstOccurrences. now rewrite <- in_rev, nodup_In, <- in_rev.
Qed.

Lemma firstOccurrences_NoDup (l : list string) : NoDup (firstOccurrences l).
Proof. apply NoDup_rev, NoDup_nodup. Qed.

Lemma firstOccurrences_snoc (l : list string) (x : string) :
  firstOccurrences (l ++ [x])
  = if Set_has l x then firstOccurrences l else firstOccurrences l ++ [x].
Proof.
  unfold firstOccurrences. rewrite rev_app_distr. simpl.
  destruct (in_dec string_dec x (rev l)) as [Hin|Hnot].
  - apply in_rev in Hin. apply Set_has_In in Hin. now rewrite Hin.
  - rewrite in_rev in Hnot. rewrite rev_involutive in Hnot.
    apply Set_has_false in Hnot. now rewrite Hnot.
Qed.

Lemma insertion_order (l : list string) :
  ~ In "g" l -> fold_left Set_add l ["g"] = "g" :: firstOccurrences l.
Proof.
  induction l as [|x l IH] using rev_ind; intros Hg; [reflexivity|].
  rewrite fold_left_app, IH by (intros H; apply Hg, in_or_app; now left).
  simpl. rewrite firstOccurrences_snoc. unfold Set_add.
  assert (Hx : x <> "g") by (intros ->; apply Hg, in_or_app; right; now left).
  destruct (Set_has l x) eqn:E.
  - replace (Set_has ("g" :: firstOccurrences l) x) with true; [reflexivity|].
    symmetry. apply Set_has_In. right. apply firstOccurrences_In.
    now apply Set_has_In.
  - replace (Set_has ("g" :: firstOccurrences l) x) with false; [reflexivity|].
    symmetry. apply Set_has_false. intros [H|H]; [congruence|].
    rewrite firstOccurrences_In in H. apply Set_has_false in E. contradiction.
Qed.

Lemma flagCode_canonical (f : flagMethod) :
  In (flagCode f) canonicalOrder /\ flagCode f <> "g".
Proof. destruct f; split; simpl; try discriminate; tauto. Qed.

Lemma hasFlag_join (fs : list string) (c : ascii) :
  incl fs canonicalOrder ->
  hasFlag (join_empty fs) c = Set_has fs (String c "").
Proof.
  induction fs as [|f fs IH]; intros Hin; [reflexivity|].
  rewrite join_empty_cons.
  assert (Hf : In f canonicalOrder) by (apply Hin; now left).
  assert (Hrest : incl fs canonicalOrder) by (intros x Hx; apply Hin; now right).
  specialize (IH Hrest). unfold hasFlag, Set_has in *.
  simpl in Hf.
  destruct Hf as [<-|[<-|[<-|[<-|[<-|[]]]]]]; simpl; rewrite IH;
    destruct c as [[] [] [] [] [] [] [] []]; reflexivity.
Qed.

Lemma engine_renders_canonically (r : RegExp) (fs : list string) :
  incl fs canonicalOrder ->
  originalFlags r = join_empty fs ->
  RegExp_flags r = canonicalFlags fs.
Proof.
  intros Hin E. unfold RegExp_flags, canonicalFlags. rewrite E.
  rewrite (filter_ext _ (fun c => Set_has fs (String c "")))
    by (intros c; now apply hasFlag_join).
  assert (Hno : forall x, ~ In x canonicalOrder -> Set_has fs x = false).
  { intros x Hx. apply Set_has_false. intros H. apply Hx, Hin, H. }
  unfold engineFlagOrder, canonicalOrder. cbn [filter].
  rewrite (Hno "d"), (Hno "v"), (Hno "y")
    by (simpl; intuition discriminate).
  destruct (Set_has fs "g"), (Set_has fs "i"), (Set_has fs "m"),
    (Set_has fs "s"), (Set_has fs "u"); reflexivity.
Qed.

Lemma flags_after_calls (calls : list flagMethod) (b0 : IrregularExpression) :
  flags b0 = ["g"] ->
  flags (callFlags calls b0) = "g" :: firstOccurrences (map flagCode calls).
Proof.
  intros H0. destruct (callFlags_fields calls b0) as [_ ->]. rewrite H0.
  apply insertion_order. intros H. apply in_map_iff in H.
  destruct H as (f & Hf & _). now apply (proj2 (flagCode_canonical f)).
Qed.

Lemma flags_after_calls_canonical (calls : list flagMethod) (b0 : IrregularExpression) :
  flags b0 = ["g"] -> incl (flags (callFlags calls b0)) canonicalOrder.
Proof.
  intros H0 x. rewrite (flags_after_calls calls b0 H0).
  intros [<-|H]; [now left|].
  rewrite firstOccurrences_In, in_map_iff in H. destruct H as (f & <- & _).
  apply flagCode_canonical.
Qed.

(** C2, as the code has it.  For every sequence of calls of the flag methods
    on a builder that has the global flag only, the flag string [build]
    passes to the engine lists the flags in the order they were first added,
    the global flag first; it is a rearrangement of the canonical rendering
    (global, case-insensitive, multiline, dotAll, unicode) of the same flags.
    When the engine accepts the pattern, the compiled expression's [flags]
    and its textual form, which the engine produces, have the canonical
    rendering, and that is the same for every sequence calling the same
    methods. *)
Theorem flags_rendered_canonically_by_engine
    (calls : list flagMethod) (b0 : IrregularExpression) :
  flags b0 = ["g"] ->
  let b := callFlags calls b0 in
  flags b = "g" :: firstOccurrences (map flagCode calls)
  /\ Permutation (flags b) (filter (Set_has (flags b)) canonicalOrder)
  /\ (forall engine c,
        engine (pattern b) (join_empty (flags b)) = inl c ->
        exists r, build engine b = (inl r, b)
                  /\ RegExp_flags r = canonicalFlags (flags b)
                  /\ RegExp_toString r
                     = ("/" ++ escapedSource c ++ "/" ++ canonicalFlags (flags b))%string)
  /\ (forall calls',
        (forall f, In f calls <-> In f calls') ->
        canonicalFlags (flags (callFlags calls' b0)) = canonicalFlags (flags b)).
Proof.
  intros H0 b. subst b.
  pose proof (flags_after_calls calls b0 H0) as Hfl.
  pose proof (flags_after_calls_canonical calls b0 H0) as Hcan.
  split; [exact Hfl|]. split; [|split].
  - apply NoDup_Permutation.
    + rewrite Hfl. constructor; [|apply firstOccurrences_NoDup].
      rewrite firstOccurrences_In, in_map_iff.
      intros (f & Hf & _). now apply (proj2 (flagCode_canonical f)).
    + apply NoDup_filter. unfold canonicalOrder.
      repeat constructor; simpl; intuition discriminate.
    + intros x. rewrite filter_In, Set_has_In. split; [|tauto].
      intros H. split; [apply Hcan, H | exact H].
  - intros engine c Hc. unfold build, new_RegExp. rewrite Hc.
    eexists. split; [reflexivity|].
    assert (Hr : RegExp_flags
                   {| compiled := c;
                      originalFlags := join_empty (flags (callFlags calls b0)) |}
                 = canonicalFlags (flags (callFlags calls b0)))
      by (now apply engine_renders_canonically).
    split; [exact Hr|]. unfold RegExp_toString. now rewrite Hr.
  - intros calls' Hsame. unfold canonicalFlags. f_equal.
    apply filter_ext_in. intros x _.
    rewrite Hfl, (flags_after_calls calls' b0 H0).
    destruct (Set_has ("g" :: firstOccurrences (map flagCode calls)) x) eqn:E.
    + apply Set_has_In. apply Set_has_In in E.
      destruct E as [E|E]; [now left|right].
      rewrite firstOccurrences_In, in_map_iff in E. destruct E as (f & <- & Hf).
      apply firstOccurrences_In, in_map, Hsame, Hf.
    + apply Set_has_false. apply Set_has_false in E. intros [H|H]; apply E.
      * now left.
      * right. rewrite firstOccurrences_In, in_map_iff in H.
        destruct H as (f & <- & Hf).
        apply firstOccurrences_In, in_map, Hsame, Hf.
Qed.

Lemma flags_rendered_canonically_by_engine_witness :
  let b := callFlags [FUnicode; FIgnoreCase; FUnicode] match_ in
  join_empty (flags b) = "gui"
  /\ exists r, build RefEngine.compile b = (inl r, b)
               /\ RegExp_flags r = "giu"
               /\ RegExp_toString r = "/(?:)/giu".
Proof.
  intros b. split; [reflexivity|].
  destruct (flags_rendered_canonically_by_engine [FUnicode; FIgnoreCase; FUnicode]
              match_ eq_refl) as (_ & _ & Heng & _).
  destruct (RefEngine.compile (pattern b) (join_empty (flags b))) as [c|message] eqn:Hc;
    [|discriminate Hc].
  destruct (Heng RefEngine.compile c Hc) as (r & Hb & Hf & Ht).
  exists r. split; [exact Hb|]. split; [exact Hf|].
  rewrite Ht. injection Hc as <-. reflexivity.
Defined.

(** C2 as the specification words it fails: after [unicode] then
    [ignoreCase] the flag string [build] uses is "gui", not the canonical
    "giu". *)
Lemma flag_string_in_insertion_order :
  ~ (forall calls,
       join_empty (flags (callFlags calls match_))
       = canonicalFlags (flags (callFlags calls match_))).
Proof.
  intros H. specialize (H [FUnicode; FIgnoreCase]). discriminate H.
Qed.

(** ** The reference engine and the match-nothing pattern *)

Lemma ref_sentinel_never_matches (o : RefEngine.options) (whole : list ascii)
    (i : nat) (s : list ascii) (k : nat -> list ascii -> option nat) :
  RefEngine.optIgnoreCase o = false ->
  RefEngine.matchAt o whole
    (RefEngine.Seq (RefEngine.Lookahead true
                      (RefEngine.Seq (RefEngine.Char "x") RefEngine.Empty))
                   (RefEngine.Seq (RefEngine.Char "x") RefEngine.Empty))
    i s k = None.
Proof.
  intros Ho. destruct s as [|c s']; cbn; [reflexivity|].
  unfold RefEngine.sameChar. rewrite Ho.
  destruct (Ascii.eqb "x" c); reflexivity.
Qed.

Lemma ref_searchFrom_nothing (o : RefEngine.options) (whole : list ascii)
    (r : RefEngine.regex) :
  (forall i s k, RefEngine.matchAt o whole r i s k = None) ->
  forall s i, RefEngine.searchFrom o whole r i s = None.
Proof.
  intros H. induction s as [|c s IH]; intros i; cbn [RefEngine.searchFrom];
    rewrite H; [reflexivity | apply IH].
Qed.

Lemma ref_sentinel_matches_nothing : SentinelMatchesNothing RefEngine.compile.
Proof.
  eexists. split; [reflexivity|].
  intros input start. cbn [matchFrom]. unfold RefEngine.search.
  rewrite ref_searchFrom_nothing; [reflexivity|].
  intros i s k. now apply ref_sentinel_never_matches.
Qed.

(** ** build and test on a rejected pattern *)

Lemma exec_never (r : RegExp) (lastIndex : nat) (input : string) :
  (forall start, matchFrom (compiled r) input start = None) ->
  fst (RegExp_exec r lastIndex input) = None.
Proof.
  intros H. unfold RegExp_exec.
  destruct (String.length input <? (if isGlobal r then lastIndex else 0))%nat;
    [reflexivity|].
  now rewrite H.
Qed.

(** C5.  For every accumulated pattern that the engine rejects, [build] fires
    one failure event carrying the engine's message and returns the
    expression compiled from the match-nothing pattern, on which no search of
    any input from any position finds a match; and [test], for every input,
    reports that same failure and returns false.  (The engine is any engine
    on which the match-nothing pattern compiles and matches nothing.) *)
Theorem rejected_pattern_builds_sentinel (engine : Engine) :
  SentinelMatchesNothing engine ->
  forall b message,
    engine (pattern b) (join_empty (flags b)) = inr message ->
    let reported := emitError ("Invalid regex pattern: " ++ message) b in
    exists sentinel,
      build engine b = (inl sentinel, reported)
      /\ new_RegExp engine sentinelPattern "" = inl sentinel
      /\ (forall input lastIndex, fst (RegExp_exec sentinel lastIndex input) = None)
      /\ (forall input, test engine input b = (false, reported)).
Proof.
  intros (c & Hc & Hnone) b message Hrej reported.
  exists {| compiled := c; originalFlags := "" |}.
  assert (Hs : new_RegExp engine sentinelPattern ""
               = inl {| compiled := c; originalFlags := "" |})
    by (unfold new_RegExp; now rewrite Hc).
  assert (Hb : build engine b = (inl {| compiled := c; originalFlags := "" |}, reported))
    by (unfold build, new_RegExp at 1; now rewrite Hrej, Hs).
  assert (Hx : forall input lastIndex,
             fst (RegExp_exec {| compiled := c; originalFlags := "" |} lastIndex input)
             = None)
    by (intros; apply exec_never; intros; apply Hnone).
  repeat split; try assumption.
  intros input. unfold test. rewrite Hb. unfold RegExp_test.
  specialize (Hx input 0).
  destruct (RegExp_exec {| compiled := c; originalFlags := "" |} 0 input) as [[m|] li];
    simpl in *; [discriminate | reflexivity].
Qed.

Lemma rejected_pattern_builds_sentinel_witness :
  let b := range "z" "a" match_ in
  pattern b = "[z-a]"
  /\ test RefEngine.compile "zebra" b
     = (false,
        emitError "Invalid regex pattern: Invalid regular expression: /[z-a]/: Range out of order in character class" b).
Proof.
  intros b. split; [reflexivity|].
  destruct (rejected_pattern_builds_sentinel RefEngine.compile
              ref_sentinel_matches_nothing b
              "Invalid regular expression: /[z-a]/: Range out of order in character class"
              eq_refl) as (sentinel & _ & _ & _ & Ht).
  exact (Ht "zebra").
Defined.

(** ** The search loop of execute *)

Lemma last_cons {A : Type} (a : A) (l : list A) (d : A) : last (a :: l) d = last l a.
Proof.
  revert a d. induction l as [|b l IH]; intros a d; [reflexivity|].
  change (last (a :: b :: l) d) with (last (b :: l) d).
  rewrite IH. symmetry. apply IH.
Qed.

Lemma endOf_cons (start : nat) (m : MatchResult) (ms : list MatchResult) :
  endOf start (m :: ms) = endOf (mEnd m) ms.
Proof. unfold endOf. cbn [map]. apply last_cons. Qed.

Section SearchLoop.

Variable r : RegExp.
Variable input : string.
Hypothesis searches : Searches r.

Lemma exec_some (start : nat) (m : MatchResult) :
  start <= String.length input ->
  matchFrom (compiled r) input start = Some m ->
  RegExp_exec r start input = (Some m, mEnd m).
Proof.
  destruct searches as [Hg|Hn]; intros Hle Hm; [|rewrite Hn in Hm; discriminate].
  unfold RegExp_exec. rewrite Hg.
  replace (String.length input <? start)%nat with false
    by (symmetry; apply Nat.ltb_ge; exact Hle).
  now rewrite Hm.
Qed.

Lemma exec_none (start : nat) :
  NoMoreFrom r input start -> fst (RegExp_exec r start input) = None.
Proof.
  destruct searches as [Hg|Hn]; intros Hno; [|now apply exec_never].
  unfold RegExp_exec. rewrite Hg.
  destruct (String.length input <? start)%nat eqn:E; [reflexivity|].
  destruct Hno as [Hlt|Hnone].
  - apply Nat.ltb_ge in E. lia.
  - now rewrite Hnone.
Qed.

(** With no cap the loop runs one iteration per match and one more for the
    search that finds nothing. *)
Lemma loop_uncapped (ms : list MatchResult) (start : nat) :
  Successive r input start ms ->
  NoMoreFrom r input (endOf start ms) ->
  forall fuel count acc, length ms < fuel ->
  executeLoop fuel r None input start count acc = Normal (acc ++ ms).
Proof.
  intros Hs.
  induction Hs as [start|start m ms Hle Hm Hs IH]; intros Hno fuel count acc Hf;
    (destruct fuel as [|fuel]; [simpl in Hf; lia|]); cbn [executeLoop].
  - pose proof (exec_none start Hno) as E.
    destruct (RegExp_exec r start input) as [[m|] li]; [discriminate|].
    now rewrite app_nil_r.
  - rewrite (exec_some start m Hle Hm). cbn [capReached].
    rewrite endOf_cons in Hno. rewrite IH by (simpl in Hf; auto; lia).
    now rewrite <- app_assoc.
Qed.

(** With a cap of [n] the loop leaves with the match that brings the count
    to [n], without a further search. *)
Lemma loop_capped (cap : option number) (n : nat) (ms : list MatchResult)
    (start : nat) :
  (forall k, capReached cap k = (n <=? k)%nat) ->
  Successive r input start ms ->
  forall fuel count acc,
    count < n -> count + length ms <= n ->
    (count + length ms < n -> NoMoreFrom r input (endOf start ms)) ->
    (length ms < fuel \/ (count + length ms = n /\ length ms <= fuel)) ->
    executeLoop fuel r cap input start count acc = Normal (acc ++ ms).
Proof.
  intros Hcap Hs.
  induction Hs as [start|start m ms Hle Hm Hs IH];
    intros fuel count acc Hc Hlen Hno Hf;
    (destruct fuel as [|fuel]; [simpl in Hf, Hlen; lia|]); cbn [executeLoop].
  - simpl in Hno. pose proof (exec_none start (Hno ltac:(lia))) as E.
    destruct (RegExp_exec r start input) as [[m|] li]; [discriminate|].
    now rewrite app_nil_r.
  - rewrite (exec_some start m Hle Hm). rewrite Hcap.
    simpl in Hf, Hlen.
    destruct (n <=? count + 1)%nat eqn:E.
    + apply Nat.leb_le in E. destruct ms; [reflexivity|simpl in Hlen; lia].
    + apply Nat.leb_gt in E. rewrite IH; [now rewrite <- app_assoc|lia|lia| |lia].
      intros H. rewrite <- (endOf_cons start). apply Hno. simpl. lia.
Qed.

Lemma take_matches (n : nat) :
  forall start, exists ms,
    Successive r input start ms
    /\ length ms <= n
    /\ (length ms < n -> NoMoreFrom r input (endOf start ms)).
Proof.
  induction n as [|n IH]; intros start.
  - exists []. split; [constructor|]. simpl. split; lia.
  - destruct (le_lt_dec start (String.length input)) as [Hle|Hlt].
    + destruct (matchFrom (compiled r) input start) as [m|] eqn:Hm.
      * destruct (IH (mEnd m)) as (ms & Hs & Hl & Hno).
        exists (m :: ms). split; [now constructor|]. simpl. split; [lia|].
        intros H. rewrite endOf_cons. apply Hno. lia.
      * exists []. split; [constructor|]. simpl. split; [lia|]. intros _. now right.
    + exists []. split; [constructor|]. simpl. split; [lia|]. intros _. now left.
Qed.

(** The complete sequence of successive matches is unique. *)
Lemma Successive_functional (ms : list MatchResult) (start : nat) :
  Successive r input start ms ->
  NoMoreFrom r input (endOf start ms) ->
  forall ms', Successive r input start ms' ->
  NoMoreFrom r input (endOf start ms') -> ms' = ms.
Proof.
  intros Hs.
  induction Hs as [start|start m ms Hle Hm Hs IH]; intros Hno ms' Hs' Hno'.
  - destruct Hs' as [|start m' ms' Hle' Hm' _]; [reflexivity|].
    destruct Hno as [H|H]; unfold endOf in H; simpl in H; [lia | congruence].
  - destruct Hs' as [start|start m' ms' Hle' Hm' Hs'].
    + destruct Hno' as [H|H]; unfold endOf in H; simpl in H; [lia | congruence].
    + assert (m' = m) by congruence. subst m'. f_equal.
      rewrite endOf_cons in Hno, Hno'. now apply IH.
Qed.

(** When every match ends after the position its search began at, the
    sequence of successive matches is finite, so the loop with no cap
    returns. *)
Lemma matches_finite_when_they_advance :
  (forall start m, start <= String.length input ->
                   matchFrom (compiled r) input start = Some m -> start < mEnd m) ->
  forall start, exists ms,
    Successive r input start ms /\ NoMoreFrom r input (endOf start ms).
Proof.
  intros Hadv.
  assert (H : forall k start, S (String.length input) - start <= k ->
              exists ms, Successive r input start ms
                         /\ NoMoreFrom r input (endOf start ms)).
  { induction k as [|k IH]; intros start Hk.
    - exists []. split; [constructor|]. left. unfold endOf. simpl. lia.
    - destruct (le_lt_dec start (String.length input)) as [Hle|Hlt].
      + destruct (matchFrom (compiled r) input start) as [m|] eqn:Hm.
        * pose proof (Hadv start m Hle Hm) as Hlt.
          destruct (IH (mEnd m)) as (ms & Hs & Hno); [lia|].
          exists (m :: ms). split; [now constructor|]. now rewrite endOf_cons.
        * exists []. split; [constructor|]. now right.
      + exists []. split; [constructor|]. now left. }
  intros start. now apply (H (S (String.length input) - start)).
Qed.

Lemma loop_returns_when_matches_advance :
  (forall start m, start <= String.length input ->
                   matchFrom (compiled r) input start = Some m -> start < mEnd m) ->
  exists ms, forall fuel, length ms < fuel ->
    executeLoop fuel r None input 0 0 [] = Normal ms.
Proof.
  intros Hadv.
  destruct (matches_finite_when_they_advance Hadv 0) as (ms & Hs & Hno).
  exists ms. intros fuel Hf.
  exact (loop_uncapped ms 0 Hs Hno fuel 0 [] Hf).
Qed.

(** A match that ends where its search began is found again by every later
    search: the loop with no cap never leaves. *)
Lemma loop_stuck (start : nat) (m : MatchResult) :
  start <= String.length input ->
  matchFrom (compiled r) input start = Some m -> mEnd m = start ->
  forall fuel count acc, executeLoop fuel r None input start count acc = Running.
Proof.
  intros Hle Hm He. induction fuel as [|fuel IH]; intros count acc; [reflexivity|].
  cbn [executeLoop]. rewrite (exec_some start m Hle Hm).
  cbn [capReached]. rewrite He. apply IH.
Qed.

End SearchLoop.

Lemma list_ascii_of_string_app (s t : string) :
  list_ascii_of_string (s ++ t) = list_ascii_of_string s ++ list_ascii_of_string t.
Proof. induction s as [|c s IH]; simpl; [reflexivity | now rewrite IH]. Qed.

Lemma hasFlag_member (fs : list string) (c : ascii) :
  In (String c "") fs -> hasFlag (join_empty fs) c = true.
Proof.
  induction fs as [|f fs IH]; intros H; [contradiction|].
  rewrite join_empty_cons. unfold hasFlag in *.
  rewrite list_ascii_of_string_app, existsb_app.
  destruct H as [->|H].
  - simpl. now rewrite Ascii.eqb_refl.
  - rewrite IH by assumption. apply orb_true_r.
Qed.

Lemma build_searches (engine : Engine) (b : IrregularExpression) :
  SentinelMatchesNothing engine -> In "g" (flags b) ->
  exists regex b', build engine b = (inl regex, b') /\ Searches regex.
Proof.
  intros (c & Hc & Hnone) Hg. unfold build, new_RegExp.
  destruct (engine (pattern b) (join_empty (flags b))) as [c'|message].
  - do 2 eexists. split; [reflexivity|]. left.
    unfold isGlobal. simpl. now apply hasFlag_member.
  - rewrite Hc. do 2 eexists. split; [reflexivity|]. right. exact Hnone.
Qed.

Lemma capReached_represents (c : number) (n k : nat) :
  represents c (Z.of_nat n) -> capReached (Some c) k = (n <=? k)%nat.
Proof.
  intros H. unfold capReached.
  rewrite (represents_leb c (ofZ (Z.of_nat k)) (Z.of_nat n) (Z.of_nat k) H
             (represents_ofZ _)).
  destruct (n <=? k)%nat eqn:E.
  - apply Z.leb_le. apply Nat.leb_le in E. lia.
  - apply Z.leb_gt. apply Nat.leb_gt in E. lia.
Qed.

Lemma Successive_strictly_left_to_right (r : RegExp) (input : string) :
  NonEmptyForward r input ->
  forall ms start, Successive r input start ms ->
  Forall (fun m => start <= mIndex m) ms /\ StrictlyLeftToRight ms.
Proof.
  intros Hlaw ms start Hs.
  induction Hs as [start|start m ms Hle Hm Hs [IHall IHord]].
  - split; [constructor|]. intros i j mi mj _ Hi. destruct i; discriminate.
  - destruct (Hlaw start m Hm) as [Hstart Hlen].
    assert (Hend : mIndex m < mEnd m) by (unfold mEnd; lia).
    split.
    + constructor; [exact Hstart|].
      eapply Forall_impl; [|exact IHall]. simpl. intros a Ha. lia.
    + intros i j mi mj Hij Hi Hj. destruct j as [|j]; [lia|]. simpl in Hj.
      destruct i as [|i]; simpl in Hi.
      * injection Hi as <-. rewrite Forall_forall in IHall.
        pose proof (IHall mj (nth_error_In _ _ Hj)) as H. simpl in H. lia.
      * apply (IHord i j); auto; lia.
Qed.

Lemma build_accepted (engine : Engine) (b : IrregularExpression) (c : Compiled) :
  engine (pattern b) (join_empty (flags b)) = inl c ->
  build engine b
  = (inl {| compiled := c; originalFlags := join_empty (flags b) |}, b).
Proof. intros H. unfold build, new_RegExp. now rewrite H. Qed.

Lemma ref_search_starts_after (o : RefEngine.options) (r : RefEngine.regex)
    (input : string) (start : nat) (m : MatchResult) :
  RefEngine.search o r input start = Some m -> start <= mIndex m.
Proof.
  unfold RefEngine.search.
  generalize (skipn start (list_ascii_of_string input)) as s.
  generalize (list_ascii_of_string input) as whole.
  intros whole s. revert start.
  induction s as [|c s IH]; intros start; cbn [RefEngine.searchFrom];
    destruct (RefEngine.matchAt o whole r start _ _);
    try (intros [= <-]; simpl; lia); try discriminate.
  destruct (RefEngine.searchFrom o whole r (S start) s) as [[i e]|] eqn:E;
    [|discriminate].
  intros [= <-]. simpl.
  specialize (IH (S start)). rewrite E in IH.
  specialize (IH eq_refl). simpl in IH. lia.
Qed.

(** A global expression's search resumes at the end of the match before it,
    not past it. *)
Lemma exec_resumes_at_match_end (r : RegExp) (start : nat) (input : string)
    (m : MatchResult) (next : nat) :
  isGlobal r = true ->
  RegExp_exec r start input = (Some m, next) -> next = mEnd m.
Proof.
  intros Hg. unfold RegExp_exec. rewrite Hg.
  destruct (String.length input <? start)%nat; [discriminate|].
  destruct (matchFrom (compiled r) input start); [|discriminate].
  now intros [= <- <-].
Qed.

(** C3, what the code does.  With the pattern of zero or more digits on the
    input "a" the first search finds the empty match at 0 and leaves the
    position the next search resumes at on 0, the end of that match and not
    past it; the next search is the same search, and [execute], with no cap,
    is still in its loop after any number of iterations. *)
Theorem execute_zero_width_match_never_returns :
  let b := zeroOrMore (digit match_) in
  exists regex,
    build RefEngine.compile b = (inl regex, b)
    /\ isGlobal regex = true
    /\ RegExp_exec regex 0 "a" = (Some (mkMatch 0 "" []), 0)
    /\ forall fuel, execute RefEngine.compile fuel "a" b = (Running, b).
Proof.
  intros b.
  destruct (RefEngine.compile (pattern b) (join_empty (flags b))) as [c|message] eqn:Hc;
    [|discriminate Hc].
  pose proof (build_accepted RefEngine.compile b c Hc) as Hb.
  eexists. split; [exact Hb|].
  injection Hc as <-.
  split; [reflexivity|]. split; [reflexivity|].
  intros fuel. unfold execute. rewrite Hb. f_equal.
  apply loop_stuck with (m := mkMatch 0 "" []);
    [left; reflexivity | simpl; lia | reflexivity | reflexivity].
Qed.

(** C1, what the code does.  [namedCapture] appends the named group on
    every name and fires no event: with the name "1x", which is no
    identifier and which [namedBackreference] refuses with a failure event,
    the pattern becomes [(?<1x>\d)] and the event log stays empty. *)
Theorem namedCapture_appends_on_every_name :
  (forall name cb b,
     namedCapture name cb b
     = {| pattern := pattern b ++ "(?<" ++ name ++ ">" ++ pattern (cb match_) ++ ")";
          flags := flags b; maxRun := maxRun b; events := events b |})
  /\ isGroupName "1x" = false
  /\ namedCapture "1x" digit match_
     = {| pattern := "(?<1x>\d)"; flags := ["g"]; maxRun := None; events := [] |}
  /\ namedBackreference "1x" match_
     = {| pattern := ""; flags := ["g"]; maxRun := None;
          events := ["namedBackreference expects a valid group name consisting of letters, numbers, and underscores, not starting with a number."] |}.
Proof. repeat split. Qed.

(** * Further properties of the code *)

(** ** Escaping, continued *)

Lemma builder_eta (b : IrregularExpression) :
  {| pattern := pattern b; flags := flags b; maxRun := maxRun b; events := events b |} = b.
Proof. now destruct b. Qed.

Lemma string_app_inv_head (p a b : string) : (p ++ a = p ++ b)%string -> a = b.
Proof.
  induction p as [|c p IH]; simpl; [auto|]. intros [= H]. auto.
Qed.

Lemma string_length_app (s t : string) :
  String.length (s ++ t) = String.length s + String.length t.
Proof. induction s as [|c s IH]; simpl; [reflexivity | now rewrite IH]. Qed.

Lemma escapeRegExp_app (s t : string) :
  escapeRegExp (s ++ t) = (escapeRegExp s ++ escapeRegExp t)%string.
Proof.
  induction s as [|c s IH]; [reflexivity|].
  change (String c s ++ t)%string with (String c (s ++ t)).
  rewrite !escapeRegExp_cons, IH. now destruct (inClass specialChars c).
Qed.

(** X1.  Escaping goes through concatenation, so a literal given in two
    pieces is the literal of the whole text; the empty literal changes
    nothing. *)
Theorem literal_composes (s t : string) (b : IrregularExpression) :
  escapeRegExp (s ++ t) = (escapeRegExp s ++ escapeRegExp t)%string
  /\ literal (s ++ t) b = literal t (literal s b)
  /\ literal "" b = b.
Proof.
  split; [apply escapeRegExp_app|]. split.
  - unfold literal, appendPattern. simpl.
    now rewrite escapeRegExp_app, string_app_assoc.
  - unfold literal, appendPattern. simpl.
    rewrite string_app_nil_r. apply builder_eta.
Qed.

Lemma plain_not_backslash (c : ascii) :
  inClass specialChars c = false -> Ascii.eqb c "\" = false.
Proof.
  intros H. destruct (Ascii.eqb c "\") eqn:E; [|reflexivity].
  apply Ascii.eqb_eq in E. subst c. discriminate H.
Qed.

Lemma unescape_escapeRegExp (s : string) : unescape (escapeRegExp s) = s.
Proof.
  induction s as [|c s IH]; [reflexivity|].
  rewrite escapeRegExp_cons. destruct (inClass specialChars c) eqn:E.
  - cbn [unescape]. rewrite Ascii.eqb_refl. now rewrite IH.
  - cbn [unescape]. rewrite (plain_not_backslash c E). now rewrite IH.
Qed.

(** X2.  Escaped text reads back as the text it came from, so escaping
    loses nothing: two texts with the same escaped form are the same text,
    and two literals that leave a builder in the same state are literals of
    the same text. *)
Theorem escape_round_trip :
  (forall s, unescape (escapeRegExp s) = s)
  /\ (forall s t, escapeRegExp s = escapeRegExp t -> s = t)
  /\ (forall s t b, literal s b = literal t b -> s = t).
Proof.
  split; [apply unescape_escapeRegExp|].
  assert (Hinj : forall s t, escapeRegExp s = escapeRegExp t -> s = t).
  { intros s t H. rewrite <- (unescape_escapeRegExp s), <- (unescape_escapeRegExp t).
    now rewrite H. }
  split; [exact Hinj|].
  intros s t b H. apply Hinj. unfold literal, appendPattern in H.
  injection H as H. now apply string_app_inv_head in H.
Qed.

Lemma escapeRegExp_length (text : string) :
  String.length (escapeRegExp text) = String.length text + countIn specialChars text.
Proof.
  induction text as [|c text IH]; [reflexivity|].
  rewrite escapeRegExp_cons. cbn [countIn String.length].
  destruct (inClass specialChars c); cbn [String.length]; rewrite IH; lia.
Qed.

Lemma countIn_zero (cls : list ascii) (text : string) :
  countIn cls text = 0 <->
  forall c, In c (list_ascii_of_string text) -> ~ In c cls.
Proof.
  induction text as [|c text IH]; simpl.
  - split; [intros _ x [] | reflexivity].
  - destruct (inClass cls c) eqn:E.
    + split; [discriminate|]. intros H. exfalso.
      apply (H c); [now left | now apply inClass_In].
    + simpl. rewrite IH. split.
      * intros H x [<-|Hx]; [|now apply H].
        intros Hin. apply inClass_In in Hin. congruence.
      * intros H x Hx. apply H. now right.
Qed.

(** X3.  The escaped text is longer than the text by one character for each
    special character in it; it is the text itself exactly when the text has
    no special character (so [anyOf("a-z")] appends [[a-z]], a range). *)
Theorem escape_identity_on_plain_text (text : string) :
  String.length (escapeRegExp text)
  = String.length text + countIn specialChars text
  /\ (escapeRegExp text = text
      <-> forall c, In c (list_ascii_of_string text) -> ~ In c specialChars)
  /\ ((forall c, In c (list_ascii_of_string text) -> ~ In c specialChars) ->
      forall b, pattern (anyOf text b) = (pattern b ++ "[" ++ text ++ "]")%string).
Proof.
  split; [apply escapeRegExp_length|].
  assert (Hiff : escapeRegExp text = text
                 <-> forall c, In c (list_ascii_of_string text) -> ~ In c specialChars).
  { rewrite <- countIn_zero. split.
    - intros H. pose proof (escapeRegExp_length text) as L. rewrite H in L. lia.
    - induction text as [|c text IH]; [reflexivity|].
      cbn [countIn]. rewrite escapeRegExp_cons.
      destruct (inClass specialChars c); [discriminate|].
      simpl. intros H. now rewrite IH. }
  split; [exact Hiff|].
  intros H b. unfold anyOf, appendPattern. simpl.
  now rewrite (proj2 Hiff H).
Qed.

Lemma escape_identity_on_plain_text_witness :
  pattern (anyOf "a-zA-Z_" match_) = "[a-zA-Z_]".
Proof.
  apply (proj2 (proj2 (escape_identity_on_plain_text "a-zA-Z_"))).
  intros c Hc Hs. simpl in Hc.
  repeat (destruct Hc as [<-|Hc];
          [simpl in Hs; intuition discriminate|]).
  exact Hc.
Defined.

(** ** Validated arguments *)

Lemma not_positive_integer (x : number) :
  (forall n, represents x n -> (n <= 0)%Z) ->
  number_leb x (ofZ 0) || negb (Number_isInteger x) = true.
Proof.
  intros H. destruct (Number_isInteger x) eqn:E; [|apply orb_true_r].
  destruct (isInteger_represents x E) as [z Hz].
  rewrite (represents_leb x (ofZ 0) z 0 Hz (represents_ofZ 0)).
  simpl. rewrite orb_false_r. apply Z.leb_le. auto.
Qed.

Lemma positive_integer (x : number) (n : Z) :
  represents x n -> (0 < n)%Z ->
  number_leb x (ofZ 0) || negb (Number_isInteger x) = false.
Proof.
  intros Hx Hn. rewrite (represents_isInteger x n Hx).
  rewrite (represents_leb x (ofZ 0) n 0 Hx (represents_ofZ 0)).
  simpl. rewrite orb_false_r. apply Z.leb_gt. exact Hn.
Qed.

(** X4.  [runTimes] stores a positive integer as the cap and changes
    nothing else; for every other argument (zero, negative, not an integer,
    NaN, an infinity) it fires "runTimes expects a positive integer." and
    keeps the cap the builder had, set or unset. *)
Theorem runTimes_sets_or_keeps_cap (count : number) (b : IrregularExpression) :
  (forall n, represents count n -> (0 < n)%Z ->
     runTimes count b
     = {| pattern := pattern b; flags := flags b; maxRun := Some count;
          events := events b |})
  /\ ((forall n, represents count n -> (n <= 0)%Z) ->
      runTimes count b
      = {| pattern := pattern b; flags := flags b; maxRun := maxRun b;
           events := events b ++ ["runTimes expects a positive integer."] |}).
Proof.
  split.
  - intros n Hn Hpos. unfold runTimes. now rewrite (positive_integer count n).
  - intros H. unfold runTimes. now rewrite not_positive_integer.
Qed.

Lemma runTimes_sets_or_keeps_cap_witness :
  maxRun (runTimes (ofZ 2) match_) = Some (ofZ 2)
  /\ maxRun (runTimes (ofZ 0) (runTimes (ofZ 2) match_)) = Some (ofZ 2)
  /\ maxRun (runTimes (Finite (3 # 2)) match_) = None
  /\ events (runTimes (ofZ (-1)) match_) = ["runTimes expects a positive integer."].
Proof.
  refine (conj _ (conj _ (conj _ _))).
  - rewrite (proj1 (runTimes_sets_or_keeps_cap (ofZ 2) match_) 2%Z
               (represents_ofZ 2) ltac:(lia)).
    reflexivity.
  - rewrite (proj2 (runTimes_sets_or_keeps_cap (ofZ 0) (runTimes (ofZ 2) match_)));
      [reflexivity|].
    intros n Hn. apply represents_ofZ_inv in Hn. lia.
  - rewrite (proj2 (runTimes_sets_or_keeps_cap (Finite (3 # 2)) match_));
      [reflexivity|].
    intros n Hn. unfold represents, Qeq in Hn. simpl in Hn. lia.
  - rewrite (proj2 (runTimes_sets_or_keeps_cap (ofZ (-1)) match_)); [reflexivity|].
    intros n Hn. apply represents_ofZ_inv in Hn. lia.
Defined.

(** X5.  [backreference] appends a backslash and the decimal group number
    for every integer from 1 on (below 2^53, where a number prints as its
    decimal numeral); for every other argument, zero included, it fires its
    failure message and leaves the pattern as it is. *)
Theorem backreference_fragment (x : number) (b : IrregularExpression) :
  (forall n, represents x n -> (1 <= n < 2 ^ 53)%Z ->
     backreference x b
     = {| pattern := pattern b ++ "\" ++ Z_to_string n; flags := flags b;
          maxRun := maxRun b; events := events b |})
  /\ ((forall n, represents x n -> (n < 1)%Z) ->
      backreference x b
      = {| pattern := pattern b; flags := flags b; maxRun := maxRun b;
           events := events b
                     ++ ["backreference expects a positive integer representing the group number."] |}).
Proof.
  split.
  - intros n Hn Hr. unfold backreference.
    rewrite (represents_isInteger x n Hn).
    rewrite (represents_ltb x (ofZ 1) n 1 Hn (represents_ofZ 1)).
    replace (n <? 1)%Z with false by (symmetry; apply Z.ltb_ge; lia).
    simpl. unfold appendPattern. now rewrite (represents_toString x n).
  - intros H. unfold backreference.
    destruct (Number_isInteger x) eqn:E; [|reflexivity].
    destruct (isInteger_represents x E) as [z Hz].
    rewrite (represents_ltb x (ofZ 1) z 1 Hz (represents_ofZ 1)).
    replace (z <? 1)%Z with true by (symmetry; apply Z.ltb_lt; auto).
    reflexivity.
Qed.

Lemma backreference_fragment_witness :
  pattern (backreference (ofZ 12) match_) = "\12"
  /\ backreference (ofZ 0) match_
     = emitError "backreference expects a positive integer representing the group number."
         match_.
Proof.
  split.
  - rewrite (proj1 (backreference_fragment (ofZ 12) match_) 12%Z
               (represents_ofZ 12) ltac:(lia)).
    reflexivity.
  - rewrite (proj2 (backreference_fragment (ofZ 0) match_)); [reflexivity|].
    intros n Hn. apply represents_ofZ_inv in Hn. lia.
Defined.

Lemma alnum_not_special (c : ascii) :
  isAlnum_ c = true -> ~ In c specialChars /\ c <> ">"%char.
Proof.
  intros H. split.
  - intros Hin. unfold specialChars in Hin. simpl in Hin.
    repeat (destruct Hin as [<-|Hin]; [discriminate H|]). exact Hin.
  - intros ->. discriminate H.
Qed.

Lemma alpha_alnum (c : ascii) : isAlpha_ c = true -> isAlnum_ c = true.
Proof. unfold isAlnum_. intros ->. reflexivity. Qed.

Lemma all_chars_In (p : ascii -> bool) (s : string) :
  all_chars p s = true <-> forall c, In c (list_ascii_of_string s) -> p c = true.
Proof.
  induction s as [|x s IH]; simpl.
  - split; [intros _ c [] | reflexivity].
  - rewrite andb_true_iff, IH. split.
    + intros [Hx Hs] c [<-|Hc]; auto.
    + intros H. split; [apply H; now left | intros c Hc; apply H; now right].
Qed.

Lemma groupName_chars (name : string) :
  isGroupName name = true ->
  name <> ""
  /\ forall c, In c (list_ascii_of_string name) -> isAlnum_ c = true.
Proof.
  destruct name as [|x rest]; [discriminate|]. simpl.
  rewrite andb_true_iff, all_chars_In. intros [Hx Hrest].
  split; [discriminate|]. intros c [<-|Hc]; [now apply alpha_alnum | auto].
Qed.

(** X6.  [namedBackreference] appends [\k<name>] exactly for the names made
    of letters, digits and underscores that do not start with a digit; such
    a name has no special character and no closing angle bracket, so it
    needs no escaping and cannot end the token early.  Every other name, the
    empty one included, fires the method's failure message and leaves the
    pattern as it is. *)
Theorem namedBackreference_fragment (name : string) (b : IrregularExpression) :
  (isGroupName name = true ->
     namedBackreference name b
     = {| pattern := pattern b ++ "\k<" ++ name ++ ">"; flags := flags b;
          maxRun := maxRun b; events := events b |}
     /\ name <> ""
     /\ (forall c, In c (list_ascii_of_string name) ->
                   isAlnum_ c = true /\ ~ In c specialChars /\ c <> ">"%char)
     /\ escapeRegExp name = name)
  /\ (isGroupName name = false ->
      namedBackreference name b
      = {| pattern := pattern b; flags := flags b; maxRun := maxRun b;
           events := events b
                     ++ ["namedBackreference expects a valid group name consisting of letters, numbers, and underscores, not starting with a number."] |})
  /\ isGroupName "" = false.
Proof.
  split; [|split; [|reflexivity]].
  - intros H. destruct (groupName_chars name H) as [Hne Hall].
    split; [unfold namedBackreference; now rewrite H|].
    split; [exact Hne|].
    assert (Hc : forall c, In c (list_ascii_of_string name) ->
                           isAlnum_ c = true /\ ~ In c specialChars /\ c <> ">"%char).
    { intros c Hin. split; [now apply Hall|]. apply alnum_not_special. now apply Hall. }
    split; [exact Hc|].
    assert (Hz : countIn specialChars name = 0)
      by (apply countIn_zero; intros c Hin; now apply Hc).
    clear -Hz. induction name as [|c name IH]; [reflexivity|].
    cbn [countIn] in Hz. rewrite escapeRegExp_cons.
    destruct (inClass specialChars c); [discriminate|].
    simpl in Hz. now rewrite IH.
  - intros H. unfold namedBackreference. now rewrite H.
Qed.

Lemma namedBackreference_fragment_witness :
  pattern (namedBackreference "word_1" match_) = "\k<word_1>"
  /\ escapeRegExp "word_1" = "word_1"
  /\ events (namedBackreference "a>b" match_)
     = ["namedBackreference expects a valid group name consisting of letters, numbers, and underscores, not starting with a number."].
Proof.
  destruct (namedBackreference_fragment "word_1" match_) as (Hv & _ & _).
  destruct (Hv eq_refl) as (E & _ & _ & Hesc).
  destruct (namedBackreference_fragment "a>b" match_) as (_ & Hi & _).
  split; [rewrite E; reflexivity|]. split; [exact Hesc|].
  rewrite (Hi eq_refl). reflexivity.
Defined.

(** X7.  The cap of every builder a program can hold is unset or a positive
    integer: no sequence of calls, with valid or invalid arguments, stores
    anything else. *)
Theorem cap_is_unset_or_positive (b : IrregularExpression) :
  Reachable b ->
  maxRun b = None
  \/ exists c n, maxRun b = Some c /\ represents c (Z.of_nat n) /\ 0 < n.
Proof.
  intros Hb. destruct (reachable_ok b Hb) as [_ Hcap].
  destruct (maxRun b) as [c|] eqn:E; [right|now left].
  destruct (Hcap c E) as [Hint Hpos].
  destruct (isInteger_represents c Hint) as [z Hz].
  rewrite (represents_leb c (ofZ 0) z 0 Hz (represents_ofZ 0)) in Hpos.
  apply Z.leb_gt in Hpos.
  exists c, (Z.to_nat z). split; [reflexivity|]. split; [|lia].
  now rewrite Z2Nat.id by lia.
Qed.

Lemma cap_is_unset_or_positive_witness :
  let b := runChain (Call (ORunTimes (ofZ 3)) (Call (ORunTimes (ofZ (-4)))
             (Call (ORunTimes NaN) Done))) match_ in
  maxRun b = Some (ofZ 3)
  /\ (maxRun b = None
      \/ exists c n, maxRun b = Some c /\ represents c (Z.of_nat n) /\ 0 < n).
Proof.
  intros b. split; [reflexivity|].
  apply cap_is_unset_or_positive. apply R_chain, R_match.
Defined.

(** ** What a chain of calls appends *)

Lemma appends_refl (b : IrregularExpression) : Appends b b.
Proof.
  split; [exists ""; now rewrite string_app_nil_r|].
  exists []. split; [now rewrite app_nil_r | constructor].
Qed.

Lemma appends_trans (b1 b2 b3 : IrregularExpression) :
  Appends b1 b2 -> Appends b2 b3 -> Appends b1 b3.
Proof.
  intros [(f1 & P1) (e1 & E1 & F1)] [(f2 & P2) (e2 & E2 & F2)]. split.
  - exists (f1 ++ f2)%string. now rewrite P2, P1, string_app_assoc.
  - exists (e1 ++ e2). split; [now rewrite E2, E1, app_assoc|].
    apply Forall_app. now split.
Qed.

Lemma appends_keep (b b' : IrregularExpression) :
  pattern b' = pattern b -> events b' = events b -> Appends b b'.
Proof.
  intros Hp He. unfold Appends. rewrite Hp, He. apply appends_refl.
Qed.

Lemma appends_append (s : string) (b : IrregularExpression) :
  Appends b (appendPattern s b).
Proof.
  split; [now exists s|]. exists []. split; [simpl; now rewrite app_nil_r | constructor].
Qed.

Lemma appends_emit (message : string) (b : IrregularExpression) :
  In message validationMessages -> Appends b (emitError message b).
Proof.
  intros H. split; [exists ""; simpl; now rewrite string_app_nil_r|].
  exists [message]. split; [reflexivity | now constructor].
Qed.

Ltac appends_case :=
  repeat match goal with
         | |- context [if ?c then _ else _] => destruct c
         end;
  first [ apply appends_append
        | apply appends_emit; simpl; tauto
        | apply appends_keep; reflexivity
        | apply appends_refl ].

Lemma runOp_runChain_append :
  (forall o b, Appends b (runOp o b)) /\ (forall c b, Appends b (runChain c b)).
Proof.
  assert (H : forall o b, Appends b (runOp o b)).
  { apply (op_chain_ind (fun o => forall b, Appends b (runOp o b))
                        (fun c => forall b, Appends b (runChain c b)));
      intros; cbn [runOp runChain];
      try (unfold ignoreCase, multiline, dotAll, unicode, runTimes, exactly, atLeast,
             between, backreference, namedBackreference, capture, namedCapture,
             nonCapturingGroup, positiveLookahead, negativeLookahead,
             positiveLookbehind, negativeLookbehind, wrapGroup, or, literal,
             range, notInRange, anyOf, noneOf, anyCharacterExcept;
           appends_case).
    - (* or with a callback *)
      unfold or. eapply appends_trans; apply appends_append.
    - (* group *)
      unfold group. eapply appends_trans; [|apply appends_append].
      eapply appends_trans; [apply appends_append | apply H].
    - eapply appends_trans; [apply H | apply H0]. }
  split; [exact H|].
  induction c as [|o rest IH]; intros b; cbn [runChain].
  - apply appends_refl.
  - eapply appends_trans; [apply H | apply IH].
Qed.

Ltac independent_case :=
  repeat match goal with
         | |- context [if ?c then _ else _] => destruct c eqn:?
         end;
  simpl; rewrite ?string_app_nil_r, ?app_nil_r, ?string_app_assoc; auto.

Lemma runOp_runChain_independent :
  (forall o b, pattern (runOp o b) = (pattern b ++ pattern (runOp o match_))%string
               /\ events (runOp o b) = events b ++ events (runOp o match_))
  /\ (forall c b, pattern (runChain c b) = (pattern b ++ pattern (runChain c match_))%string
                  /\ events (runChain c b) = events b ++ events (runChain c match_)).
Proof.
  assert (H : forall o b,
             pattern (runOp o b) = (pattern b ++ pattern (runOp o match_))%string
             /\ events (runOp o b) = events b ++ events (runOp o match_)).
  { apply (op_chain_ind
             (fun o => forall b,
                  pattern (runOp o b) = (pattern b ++ pattern (runOp o match_))%string
                  /\ events (runOp o b) = events b ++ events (runOp o match_))
             (fun c => forall b,
                  pattern (runChain c b) = (pattern b ++ pattern (runChain c match_))%string
                  /\ events (runChain c b) = events b ++ events (runChain c match_)));
      intros; cbn [runOp runChain];
      try (unfold ignoreCase, multiline, dotAll, unicode, runTimes, exactly, atLeast,
             between, backreference, namedBackreference, capture, namedCapture,
             nonCapturingGroup, positiveLookahead, negativeLookahead,
             positiveLookbehind, negativeLookbehind, wrapGroup, or, literal,
             range, notInRange, anyOf, noneOf, anyCharacterExcept;
           solve [independent_case]).
    - (* group *)
      unfold group.
      destruct (H (appendPattern "(" b)) as [Hp He].
      destruct (H (appendPattern "(" match_)) as [Hp0 He0].
      simpl. rewrite Hp, He, Hp0, He0. simpl.
      rewrite !string_app_assoc. auto.
    - destruct (H0 (runOp o b)) as [Hp He].
      destruct (H0 (runOp o match_)) as [Hp0 He0].
      destruct (H b) as [Hq Hf].
      rewrite Hp, He, Hp0, He0, Hq, Hf.
      rewrite string_app_assoc, app_assoc. auto. }
  split; [exact H|].
  induction c as [|o rest IH]; intros b; cbn [runChain].
  - simpl. now rewrite string_app_nil_r, app_nil_r.
  - destruct (IH (runOp o b)) as [Hp He].
    destruct (IH (runOp o match_)) as [Hp0 He0].
    destruct (H o b) as [Hq Hf].
    rewrite Hp, He, Hp0, He0, Hq, Hf.
    rewrite string_app_assoc, app_assoc. auto.
Qed.

Lemma runChain_chainApp (c1 c2 : chain) (b : IrregularExpression) :
  runChain (chainApp c1 c2) b = runChain c2 (runChain c1 b).
Proof.
  revert b. induction c1 as [|o rest IH]; intros b; simpl; [reflexivity | apply IH].
Qed.

(** X8.  No chain of calls, however nested, removes or rewrites what the
    receiver has: it appends one fragment to the pattern and some messages to
    the event log, and both are the same for every receiver (they are what
    the chain leaves on a new builder).  Every message is one of the six
    validation messages of the class, and the fragment of one chain after
    another is the two fragments joined. *)
Theorem chain_appends_receiver_independent_fragment (c : chain) (b : IrregularExpression) :
  pattern (runChain c b) = (pattern b ++ pattern (runChain c match_))%string
  /\ events (runChain c b) = events b ++ events (runChain c match_)
  /\ Forall (fun message => In message validationMessages) (events (runChain c match_))
  /\ (forall c',
        runChain (chainApp c c') b = runChain c' (runChain c b)
        /\ pattern (runChain (chainApp c c') match_)
           = (pattern (runChain c match_) ++ pattern (runChain c' match_))%string).
Proof.
  destruct (proj2 runOp_runChain_independent c b) as [Hp He].
  split; [exact Hp|]. split; [exact He|]. split.
  - destruct (proj2 runOp_runChain_append c match_) as [_ (extra & E & F)].
    rewrite E. exact F.
  - intros c'. split; [apply runChain_chainApp|].
    rewrite runChain_chainApp.
    apply (proj2 runOp_runChain_independent c' (runChain c match_)).
Qed.

Example chain_fragment_example :
  let c := Call OStartOfLine (Call ODigit (Call (OExactly (ofZ (-3)))
             (Call OOneOrMore (Call OEndOfLine Done)))) in
  pattern (runChain c match_) = "^\d+$"
  /\ events (runChain c match_) = ["exactly expects a non-negative integer."].
Proof. split; reflexivity. Qed.

(** X9.  [capture] and [group] given the same chain of calls as callback
    append the same text, but differ in what reaches the receiver: [capture]
    (like every method that hands its callback a child builder) leaves the
    receiver's flags, cap and event log as they were whatever the callback
    does, so a validation failure inside the callback is not reported on
    the receiver; [group] runs the callback on the receiver, so its
    validation messages are appended to the receiver's log. *)
Theorem capture_isolates_group_shares (body : chain) (b : IrregularExpression) :
  pattern (group (runChain body) b) = pattern (capture (runChain body) b)
  /\ pattern (capture (runChain body) b)
     = (pattern b ++ "(" ++ pattern (runChain body match_) ++ ")")%string
  /\ (forall cb : callback,
        flags (capture cb b) = flags b
        /\ maxRun (capture cb b) = maxRun b
        /\ events (capture cb b) = events b)
  /\ events (group (runChain body) b) = events b ++ events (runChain body match_).
Proof.
  destruct (proj2 runOp_runChain_independent body (appendPattern "(" b)) as [Hp He].
  refine (conj _ (conj _ (conj _ _))).
  - unfold group, capture, wrapGroup, getPattern. simpl. rewrite Hp. simpl.
    now rewrite !string_app_assoc.
  - reflexivity.
  - intros cb. repeat split.
  - unfold group. simpl. exact He.
Qed.

Example capture_isolates_group_shares_example :
  let body := Call OIgnoreCase (Call (OExactly NaN) (Call ODigit Done)) in
  capture (runChain body) match_
  = {| pattern := "(\d)"; flags := ["g"]; maxRun := None; events := [] |}
  /\ group (runChain body) match_
     = {| pattern := "(\d)"; flags := ["g"; "i"]; maxRun := None;
          events := ["exactly expects a non-negative integer."] |}.
Proof. split; reflexivity. Qed.

(** ** The flag string of every builder *)

Lemma Set_add_known (s : list string) (x : string) :
  incl s canonicalOrder -> In x canonicalOrder -> incl (Set_add s x) canonicalOrder.
Proof.
  intros Hs Hx y Hy. apply Set_add_In in Hy. destruct Hy as [Hy| ->]; auto.
Qed.

Ltac known_case :=
  repeat match goal with
         | |- context [if ?c then _ else _] => destruct c
         end;
  simpl; first [ assumption | apply Set_add_known; [assumption | simpl; tauto] ].

Lemma runOp_runChain_known :
  (forall o b, incl (flags b) canonicalOrder -> incl (flags (runOp o b)) canonicalOrder)
  /\ (forall c b, incl (flags b) canonicalOrder ->
                  incl (flags (runChain c b)) canonicalOrder).
Proof.
  assert (H : forall o b, incl (flags b) canonicalOrder ->
                          incl (flags (runOp o b)) canonicalOrder).
  { apply (op_chain_ind
             (fun o => forall b, incl (flags b) canonicalOrder ->
                                 incl (flags (runOp o b)) canonicalOrder)
             (fun c => forall b, incl (flags b) canonicalOrder ->
                                 incl (flags (runChain c b)) canonicalOrder));
      intros; cbn [runOp runChain];
      try (unfold ignoreCase, multiline, dotAll, unicode, runTimes, exactly, atLeast,
             between, backreference, namedBackreference, capture, namedCapture,
             nonCapturingGroup, positiveLookahead, negativeLookahead,
             positiveLookbehind, negativeLookbehind, wrapGroup, or, literal,
             range, notInRange, anyOf, noneOf, anyCharacterExcept;
           solve [known_case]).
    - unfold group. simpl. apply H. assumption.
    - apply H0, H, H1. }
  split; [exact H|].
  induction c as [|o rest IH]; intros b Hb; cbn [runChain]; [assumption|].
  apply IH, H, Hb.
Qed.

Lemma fold_Set_add_extends (l s : list string) :
  exists extra, fold_left Set_add l s = s ++ extra.
Proof.
  revert s. induction l as [|x l IH]; intros s; simpl.
  - exists []. now rewrite app_nil_r.
  - destruct (IH (Set_add s x)) as (e2 & E2).
    destruct (Set_add_extends s x) as (e1 & E1).
    exists (e1 ++ e2). now rewrite E2, E1, app_assoc.
Qed.

Lemma reachable_flags (b : IrregularExpression) :
  Reachable b ->
  incl (flags b) canonicalOrder /\ exists rest, flags b = "g" :: rest.
Proof.
  induction 1 as [|c b _ [Hk (rest & Hg)]|bs _ IH].
  - split; [intros x [<-|[]]; now left | now exists []].
  - split; [now apply (proj2 runOp_runChain_known)|].
    destruct (proj2 runOp_runChain_grow c b) as ((extra & E) & _).
    exists (rest ++ extra). now rewrite E, Hg.
  - split.
    + intros f Hf. apply combine_flags_In in Hf.
      destruct Hf as [->|(b & Hb & Hf)]; [now left|].
      exact (proj1 (IH b Hb) f Hf).
    + destruct (combine_fields bs) as (_ & -> & _).
      destruct (fold_Set_add_extends (concat (map flags bs)) ["g"]) as (extra & E).
      exists extra. now rewrite E.
Qed.

Lemma canonical_single (f : string) :
  In f canonicalOrder ->
  exists c, f = String c "" /\ In c ["g"; "i"; "m"; "s"; "u"]%char.
Proof.
  simpl. intros [<-|[<-|[<-|[<-|[<-|[]]]]]]; eexists; (split; [reflexivity|]);
    simpl; tauto.
Qed.

Lemma flag_string_chars (fs : list string) :
  incl fs canonicalOrder -> NoDup fs ->
  Forall (fun c => In c ["g"; "i"; "m"; "s"; "u"]%char)
         (list_ascii_of_string (join_empty fs))
  /\ NoDup (list_ascii_of_string (join_empty fs))
  /\ length (list_ascii_of_string (join_empty fs)) = length fs.
Proof.
  induction fs as [|f fs IH]; intros Hin Hnd.
  - repeat split; constructor.
  - rewrite join_empty_cons, list_ascii_of_string_app.
    destruct (canonical_single f (Hin f (or_introl eq_refl))) as (c & -> & Hc).
    inversion Hnd as [|? ? Hnot Hnd']; subst.
    destruct (IH (fun x Hx => Hin x (or_intror Hx)) Hnd') as (Hall & Hno & Hlen).
    simpl. repeat split.
    + now constructor.
    + constructor; [|exact Hno]. intros Hc'. apply Hnot.
      apply Set_has_In. rewrite <- hasFlag_join by (intros x Hx; apply Hin; now right).
      unfold hasFlag. apply existsb_exists. exists c. split; [exact Hc'|].
      apply Ascii.eqb_refl.
    + now rewrite Hlen.
Qed.

(** X10.  The flag string [build] passes to the engine is well formed for
    every builder a program can hold: it starts with the global flag, has
    only the characters g, i, m, s and u, none of them twice, and so at most
    five characters. *)
Theorem flag_string_well_formed (b : IrregularExpression) :
  Reachable b ->
  let fl := list_ascii_of_string (join_empty (flags b)) in
  hd_error fl = Some "g"%char
  /\ Forall (fun c => In c ["g"; "i"; "m"; "s"; "u"]%char) fl
  /\ NoDup fl
  /\ length fl <= 5.
Proof.
  intros Hb fl. subst fl.
  destruct (reachable_flags b Hb) as [Hk (rest & Hg)].
  destruct (reachable_ok b Hb) as [[_ Hnd] _].
  destruct (flag_string_chars (flags b) Hk Hnd) as (Hall & Hno & Hlen).
  split; [|split; [exact Hall | split; [exact Hno|]]].
  - rewrite Hg, join_empty_cons. reflexivity.
  - rewrite Hlen.
    change 5 with (length canonicalOrder).
    now apply NoDup_incl_length.
Qed.

Lemma flag_string_well_formed_witness :
  let b := combine [runChain (Call OUnicode (Call ODotAll Done)) match_;
                    runChain (Call OMultiline (Call OUnicode Done)) match_] in
  join_empty (flags b) = "gusm"
  /\ NoDup (list_ascii_of_string (join_empty (flags b))).
Proof.
  intros b. split; [reflexivity|].
  apply (flag_string_well_formed b).
  apply R_combine. intros x [<-|[<-|[]]]; apply R_chain, R_match.
Defined.

(** ** combine, continued *)

Lemma builder_ext (b1 b2 : IrregularExpression) :
  pattern b1 = pattern b2 -> flags b1 = flags b2 -> maxRun b1 = maxRun b2 ->
  events b1 = events b2 -> b1 = b2.
Proof. destruct b1, b2; simpl; intros; now subst. Qed.

Lemma join_empty_app (l1 l2 : list string) :
  join_empty (l1 ++ l2) = (join_empty l1 ++ join_empty l2)%string.
Proof.
  induction l1 as [|x l1 IH]; [reflexivity|].
  change ((x :: l1) ++ l2) with (x :: (l1 ++ l2)).
  now rewrite !join_empty_cons, IH, string_app_assoc.
Qed.

Lemma Set_add_member (s : list string) (x : string) : In x s -> Set_add s x = s.
Proof. intros H. unfold Set_add. apply Set_has_In in H. now rewrite H. Qed.

Lemma Set_add_fresh (s : list string) (x : string) : ~ In x s -> Set_add s x = s ++ [x].
Proof. intros H. unfold Set_add. apply Set_has_false in H. now rewrite H. Qed.

Lemma fold_Set_add_fresh (l s : list string) :
  NoDup (s ++ l) -> fold_left Set_add l s = s ++ l.
Proof.
  revert s. induction l as [|x l IH]; intros s H; simpl; [now rewrite app_nil_r|].
  rewrite Set_add_fresh.
  - rewrite IH; rewrite <- app_assoc; [reflexivity | exact H].
  - apply NoDup_remove_2 in H. intros Hx. apply H, in_or_app. now left.
Qed.

Lemma fold_Set_add_absorb (l s acc : list string) :
  (forall x, In x s -> In x acc) ->
  fold_left Set_add (fold_left Set_add l s) acc = fold_left Set_add l acc.
Proof.
  intros Hs. induction l as [|x l IH] using rev_ind.
  - simpl. revert acc Hs. induction s as [|y s IHs]; intros acc Hs; [reflexivity|].
    simpl. rewrite Set_add_member by (apply Hs; now left).
    apply IHs. intros z Hz. apply Hs. now right.
  - rewrite !fold_left_app. simpl.
    destruct (in_dec string_dec x (fold_left Set_add l s)) as [Hin|Hnot].
    + rewrite (Set_add_member _ x Hin), IH. symmetry. apply Set_add_member.
      apply fold_Set_add_In. apply fold_Set_add_In in Hin. destruct Hin; auto.
    + rewrite (Set_add_fresh _ x Hnot), fold_left_app, IH. reflexivity.
Qed.

Lemma fold_Set_add_self (l : list string) :
  let fs := fold_left Set_add l ["g"] in fold_left Set_add fs ["g"] = fs.
Proof.
  intros fs. subst fs.
  destruct (fold_Set_add_extends l ["g"]) as (extra & E).
  assert (Hnd : NoDup (fold_left Set_add l ["g"]))
    by (apply fold_Set_add_NoDup; repeat constructor; simpl; tauto).
  rewrite E in *. simpl. rewrite Set_add_member by now left.
  now apply (fold_Set_add_fresh extra ["g"]).
Qed.

(** X11.  [combine] is associative: combining two combinations gives the
    very builder that combining all the arguments at once gives, and the
    pattern of a combination of two lists is the two combined patterns
    joined.  [combine] of nothing is a new builder; [combine] of one builder
    a program holds has that builder's pattern and flags. *)
Theorem combine_associative (bs1 bs2 : list IrregularExpression) :
  combine [combine bs1; combine bs2] = combine (bs1 ++ bs2)
  /\ pattern (combine (bs1 ++ bs2))
     = (pattern (combine bs1) ++ pattern (combine bs2))%string
  /\ combine [] = match_
  /\ (forall b, Reachable b ->
        pattern (combine [b]) = pattern b /\ flags (combine [b]) = flags b).
Proof.
  destruct (combine_fields bs1) as (P1 & F1 & M1 & E1).
  destruct (combine_fields bs2) as (P2 & F2 & M2 & E2).
  destruct (combine_fields (bs1 ++ bs2)) as (P & F & M & E).
  destruct (combine_fields [combine bs1; combine bs2]) as (P' & F' & M' & E').
  assert (Hp : pattern (combine (bs1 ++ bs2))
               = (pattern (combine bs1) ++ pattern (combine bs2))%string)
    by (now rewrite P, P1, P2, map_app, join_empty_app).
  split; [|split; [exact Hp | split; [reflexivity|]]].
  - apply builder_ext.
    + rewrite P', Hp. reflexivity.
    + rewrite F', F. cbn [map concat]. rewrite app_nil_r, fold_left_app.
      rewrite F1 at 1. rewrite fold_Set_add_self. rewrite F2.
      rewrite fold_Set_add_absorb.
      * rewrite map_app, concat_app, fold_left_app. reflexivity.
      * intros x [<-|[]]. apply fold_Set_add_In. left. now left.
    + now rewrite M', M.
    + now rewrite E', E.
  - intros b Hb. destruct (combine_fields [b]) as (Pb & Fb & _).
    split.
    + rewrite Pb. unfold join_empty. reflexivity.
    + rewrite Fb. cbn [map concat]. rewrite app_nil_r.
      destruct (reachable_flags b Hb) as [_ (rest & Hg)].
      destruct (reachable_ok b Hb) as [[_ Hnd] _].
      rewrite Hg in *. simpl. rewrite Set_add_member by now left.
      now apply (fold_Set_add_fresh rest ["g"]).
Qed.

Lemma combine_associative_witness :
  let b := runChain (Call OUnicode (Call (OLiteral "a.b") (Call OIgnoreCase Done)))
             match_ in
  pattern (combine [b]) = "a\.b" /\ flags (combine [b]) = ["g"; "u"; "i"].
Proof.
  intros b.
  destruct (proj2 (proj2 (proj2 (combine_associative [] []))) b) as [Hp Hf].
  - apply R_chain, R_match.
  - rewrite Hp, Hf. split; reflexivity.
Defined.

(** ** Terminal operations, continued *)

Lemma exec_at_zero (r : RegExp) (input : string) :
  RegExp_exec r 0 input
  = match matchFrom (compiled r) input 0 with
    | None => (None, 0)
    | Some m => (Some m, if isGlobal r then mEnd m else 0)
    end.
Proof.
  unfold RegExp_exec.
  destruct (isGlobal r); cbn; destruct (matchFrom (compiled r) input 0); reflexivity.
Qed.

Lemma executeLoop_extends (fuel : nat) (r : RegExp) (cap : option number)
    (input : string) :
  forall lastIndex count acc ms,
    executeLoop fuel r cap input lastIndex count acc = Normal ms ->
    exists rest, ms = acc ++ rest.
Proof.
  induction fuel as [|fuel IH]; intros lastIndex count acc ms; cbn [executeLoop];
    [discriminate|].
  destruct (RegExp_exec r lastIndex input) as [[m|] li].
  - destruct (capReached cap (count + 1)).
    + intros [= <-]. now exists [m].
    + intros H. apply IH in H. destruct H as (rest & ->).
      exists (m :: rest). now rewrite <- app_assoc.
  - intros [= <-]. exists []. now rewrite app_nil_r.
Qed.

Lemma executeLoop_never_throws (fuel : nat) (r : RegExp) (cap : option number)
    (input : string) :
  forall lastIndex count acc message,
    executeLoop fuel r cap input lastIndex count acc <> Throw message.
Proof.
  induction fuel as [|fuel IH]; intros lastIndex count acc message; cbn [executeLoop];
    [discriminate|].
  destruct (RegExp_exec r lastIndex input) as [[m|] li]; [|discriminate].
  destruct (capReached cap (count + 1)); [discriminate | apply IH].
Qed.

Lemma build_always_returns (engine : Engine) :
  SentinelMatchesNothing engine ->
  forall b, exists regex b', build engine b = (inl regex, b').
Proof.
  intros (c0 & Hc0 & _) b. unfold build, new_RegExp.
  destruct (engine (pattern b) (join_empty (flags b))) as [c|message].
  - now do 2 eexists.
  - rewrite Hc0. now do 2 eexists.
Qed.

(** X12.  On an engine that compiles the match-nothing pattern, no terminal
    operation throws: [build] always returns an expression, [execute] and
    [replace] never end in a failure, and [test] never reports "Test
    failed".  Each of them leaves the pattern, flags and cap as they were
    and leaves the same event log as [build]: the log unchanged when the
    engine accepts the pattern, and one "Invalid regex pattern" message with
    the engine's text added when it rejects it. *)
Theorem terminal_operations_never_throw (engine : Engine) :
  SentinelMatchesNothing engine ->
  forall b,
  exists regex b',
    build engine b = (inl regex, b')
    /\ pattern b' = pattern b /\ flags b' = flags b /\ maxRun b' = maxRun b
    /\ ((exists c, engine (pattern b) (join_empty (flags b)) = inl c /\ b' = b)
        \/ (exists message,
              engine (pattern b) (join_empty (flags b)) = inr message
              /\ events b' = events b ++ ["Invalid regex pattern: " ++ message]%string))
    /\ (forall input, snd (test engine input b) = b')
    /\ (forall fuel input,
          snd (execute engine fuel input b) = b'
          /\ forall message, fst (execute engine fuel input b) <> Throw message)
    /\ (forall (R : Type) (engineReplace : RegExp -> string -> R -> string)
               input replacement,
          replace engine engineReplace input replacement b
          = (Normal (engineReplace regex input replacement), b')).
Proof.
  intros (c0 & Hc0 & _) b.
  assert (Hb : exists regex b',
             build engine b = (inl regex, b')
             /\ ((exists c, engine (pattern b) (join_empty (flags b)) = inl c /\ b' = b)
                 \/ (exists message,
                       engine (pattern b) (join_empty (flags b)) = inr message
                       /\ events b' = events b ++ ["Invalid regex pattern: " ++ message]%string))).
  { unfold build, new_RegExp.
    destruct (engine (pattern b) (join_empty (flags b))) as [c|message] eqn:E.
    - do 2 eexists. split; [reflexivity|]. left. now exists c.
    - rewrite Hc0. do 2 eexists. split; [reflexivity|]. right. now exists message. }
  destruct Hb as (regex & b' & Hb & Hcase).
  pose proof (build_keeps_fields engine b) as Hk. rewrite Hb in Hk.
  destruct Hk as (Hp & Hf & Hm).
  exists regex, b'. repeat split; try assumption.
  - intros input. unfold test. now rewrite Hb.
  - unfold execute. now rewrite Hb.
  - unfold execute. rewrite Hb. simpl. apply executeLoop_never_throws.
  - intros R engineReplace input replacement. unfold replace. now rewrite Hb.
Qed.

Lemma terminal_operations_never_throw_witness :
  let b := oneOrMore match_ in
  events (snd (test RefEngine.compile "aaa" b))
  = ["Invalid regex pattern: Invalid regular expression: /+/: Nothing to repeat"]
  /\ events (snd (execute RefEngine.compile 5 "aaa" b))
     = events (snd (test RefEngine.compile "aaa" b)).
Proof.
  intros b.
  destruct (terminal_operations_never_throw RefEngine.compile
              ref_sentinel_matches_nothing b)
    as (regex & b' & Hb & _ & _ & _ & _ & Ht & Hx & _).
  rewrite (Ht "aaa"), (proj1 (Hx 5 "aaa")).
  split; [|reflexivity].
  assert (E : snd (build RefEngine.compile b) = b') by now rewrite Hb.
  rewrite <- E. reflexivity.
Defined.

(** X13.  When the engine rejects the accumulated pattern, [execute]
    returns no match at all, for every input and every cap, as soon as one
    iteration is allowed, and leaves the failure message in the event log. *)
Theorem execute_on_rejected_pattern (engine : Engine) :
  SentinelMatchesNothing engine ->
  forall b message,
    engine (pattern b) (join_empty (flags b)) = inr message ->
    forall fuel input,
      0 < fuel ->
      execute engine fuel input b
      = (Normal [], emitError ("Invalid regex pattern: " ++ message) b).
Proof.
  intros (c & Hc & Hnone) b message Hrej fuel input Hf.
  unfold execute, build, new_RegExp. rewrite Hrej, Hc.
  destruct fuel as [|fuel]; [lia|]. cbn [executeLoop].
  pose proof (exec_never {| compiled := c; originalFlags := "" |} 0 input
                (fun start => Hnone input start)) as E.
  destruct (RegExp_exec {| compiled := c; originalFlags := "" |} 0 input) as [[m|] li];
    [discriminate | reflexivity].
Qed.

Lemma execute_on_rejected_pattern_witness :
  let b := runTimes (ofZ 2) (capture (fun g => g) (literal "a" (zeroOrOne match_))) in
  pattern b = "?a()"
  /\ fst (execute RefEngine.compile 1 "banana" b) = Normal [].
Proof.
  intros b. split; [reflexivity|].
  rewrite (execute_on_rejected_pattern RefEngine.compile ref_sentinel_matches_nothing b
             "Invalid regular expression: /?a()/: Nothing to repeat" eq_refl 1 "banana"
             ltac:(lia)).
  reflexivity.
Defined.

(** X14.  [test] and [execute] agree: [test] is true exactly when the search
    from the start of the input finds a match; when it is false [execute]
    returns the empty list, and when it is true every list [execute] returns
    begins with that first match. *)
Theorem test_agrees_with_execute (engine : Engine) :
  SentinelMatchesNothing engine ->
  forall b input,
  exists regex b',
    build engine b = (inl regex, b')
    /\ (fst (test engine input b) = true
        <-> exists m, matchFrom (compiled regex) input 0 = Some m)
    /\ (fst (test engine input b) = false ->
        forall fuel, 0 < fuel -> fst (execute engine fuel input b) = Normal [])
    /\ (forall m, matchFrom (compiled regex) input 0 = Some m ->
        forall fuel ms, fst (execute engine fuel input b) = Normal ms ->
                        exists rest, ms = m :: rest).
Proof.
  intros Hsent b input.
  destruct (build_always_returns engine Hsent b) as (regex & b' & Hb).
  exists regex, b'. split; [exact Hb|].
  assert (Ht : fst (test engine input b)
               = match matchFrom (compiled regex) input 0 with
                 | Some _ => true
                 | None => false
                 end).
  { unfold test. rewrite Hb. unfold RegExp_test. rewrite exec_at_zero.
    now destruct (matchFrom (compiled regex) input 0). }
  split; [|split].
  - rewrite Ht. destruct (matchFrom (compiled regex) input 0) as [m|].
    + split; [now exists m | reflexivity].
    + split; [discriminate | intros (m & Hm); discriminate].
  - rewrite Ht. intros Hfalse fuel Hf. unfold execute. rewrite Hb. simpl.
    destruct fuel as [|fuel]; [lia|]. cbn [executeLoop]. rewrite exec_at_zero.
    destruct (matchFrom (compiled regex) input 0); [discriminate | reflexivity].
  - intros m Hm fuel ms. unfold execute. rewrite Hb. simpl.
    destruct fuel as [|fuel]; [discriminate|]. cbn [executeLoop].
    rewrite exec_at_zero, Hm. simpl.
    destruct (capReached (maxRun b) 1).
    + intros [= <-]. now exists [].
    + intros H. apply executeLoop_extends in H. destruct H as (rest & ->).
      now exists rest.
Qed.

Lemma test_agrees_with_execute_witness :
  let b := oneOrMore (digit match_) in
  fst (test RefEngine.compile "no digits" b) = false
  /\ fst (execute RefEngine.compile 1 "no digits" b) = Normal [].
Proof.
  intros b.
  destruct (test_agrees_with_execute RefEngine.compile ref_sentinel_matches_nothing
              b "no digits") as (regex & b' & _ & _ & Hfalse & _).
  split; [reflexivity|]. apply Hfalse; [reflexivity | lia].
Defined.

Lemma loop_repeats (r : RegExp) (input : string) (cap : option number) (n start : nat)
    (m : MatchResult) :
  isGlobal r = true -> start <= String.length input ->
  matchFrom (compiled r) input start = Some m -> mEnd m = start ->
  (forall k, capReached cap k = (n <=? k)%nat) ->
  forall fuel count acc,
    count < n -> n - count <= fuel ->
    executeLoop fuel r cap input start count acc = Normal (acc ++ repeat m (n - count)).
Proof.
  intros Hg Hle Hm He Hcap.
  induction fuel as [|fuel IH]; intros count acc Hc Hf; [lia|].
  cbn [executeLoop].
  rewrite (exec_some r input (or_introl Hg) start m Hle Hm), Hcap.
  destruct (n <=? count + 1)%nat eqn:E.
  - apply Nat.leb_le in E. replace (n - count) with 1 by lia. reflexivity.
  - apply Nat.leb_gt in E. rewrite He, IH by lia.
    replace (n - count) with (S (n - (count + 1))) by lia.
    simpl. now rewrite <- app_assoc.
Qed.

(** X15.  Under a cap of [n], when the first match of a global expression
    is empty and lies at the start of the input, [execute] returns that one
    match [n] times: every search resumes at the end of the match before it,
    which is where it began, and nothing later in the input is reached. *)
Theorem execute_repeats_empty_match (engine : Engine) (b b' : IrregularExpression)
    (regex : RegExp) (input : string) (c : number) (n : nat) (m : MatchResult) :
  build engine b = (inl regex, b') ->
  isGlobal regex = true ->
  maxRun b = Some c -> represents c (Z.of_nat n) -> 0 < n ->
  matchFrom (compiled regex) input 0 = Some m -> mEnd m = 0 ->
  forall fuel, n <= fuel ->
    execute engine fuel input b = (Normal (repeat m n), b').
Proof.
  intros Hb Hg Hc Hrep Hn Hm He fuel Hf.
  unfold execute. rewrite Hb, Hc. f_equal.
  rewrite (loop_repeats regex input (Some c) n 0 m Hg ltac:(lia) Hm He
             (fun k => capReached_represents c n k Hrep) fuel 0 [] Hn ltac:(lia)).
  now rewrite Nat.sub_0_r.
Qed.

Lemma execute_repeats_empty_match_witness :
  let b := runTimes (ofZ 3) (zeroOrMore (digit match_)) in
  fst (execute RefEngine.compile 3 "a1" b)
  = Normal [mkMatch 0 "" []; mkMatch 0 "" []; mkMatch 0 "" []].
Proof.
  intros b.
  destruct (RefEngine.compile (pattern b) (join_empty (flags b))) as [c|message] eqn:Hc;
    [|discriminate Hc].
  pose proof (build_accepted RefEngine.compile b c Hc) as Hb.
  injection Hc as <-.
  rewrite (execute_repeats_empty_match RefEngine.compile b b _ "a1" (ofZ 3) 3
             (mkMatch 0 "" []) Hb eq_refl eq_refl (represents_ofZ 3) ltac:(lia)
             eq_refl eq_refl 3 ltac:(lia)).
  reflexivity.
Defined.

(** ** Literals on the reference engine *)

Lemma plain_differs (c : ascii) :
  inClass specialChars c = false ->
  Forall (fun x => Ascii.eqb c x = false) specialChars.
Proof.
  intros H. apply Forall_forall. intros x Hx.
  destruct (Ascii.eqb c x) eqn:E; [|reflexivity].
  apply Ascii.eqb_eq in E. subst x. apply inClass_In in Hx. congruence.
Qed.

Lemma ref_parseAtom_plain (fuel : nat) (c : ascii) (s : list ascii) :
  0 < fuel -> inClass specialChars c = false ->
  RefEngine.parseAtom fuel (c :: s) = inl (RefEngine.Char c, s).
Proof.
  intros Hf H. destruct fuel as [|fuel]; [lia|]. pose proof (plain_differs c H) as F. unfold specialChars in F.
  repeat match goal with
         | F : Forall _ (_ :: _) |- _ => inversion F as [|? ? ? ?]; clear F; subst
         end.
  cbn [RefEngine.parseAtom]. unfold RefEngine.isChar.
  repeat match goal with
         | E : Ascii.eqb c _ = false |- _ => rewrite E; clear E
         end.
  reflexivity.
Qed.

Lemma ref_parseAtom_special (fuel : nat) (c : ascii) (s : list ascii) :
  0 < fuel -> In c specialChars ->
  RefEngine.parseAtom fuel ("\"%char :: c :: s) = inl (RefEngine.Char c, s).
Proof.
  intros Hf H. destruct fuel as [|fuel]; [lia|]. unfold specialChars in H. simpl in H.
  repeat (destruct H as [<-|H]; [reflexivity|]). contradiction.
Qed.

Lemma ref_parseQuantifier_none (s : list ascii) :
  match s with
  | [] => True
  | h :: _ => h = "\"%char \/ inClass specialChars h = false
  end ->
  RefEngine.parseQuantifier s = inl (fun a => a, s).
Proof.
  destruct s as [|h s]; [reflexivity|]. intros [->|H]; [reflexivity|].
  pose proof (plain_differs h H) as F. unfold specialChars in F.
  repeat match goal with
         | F : Forall _ (_ :: _) |- _ => inversion F as [|? ? ? ?]; clear F; subst
         end.
  unfold RefEngine.parseQuantifier. cbn [RefEngine.strip].
  repeat match goal with
         | E : Ascii.eqb h ?x = false |- _ =>
             rewrite (Ascii.eqb_sym h x) in E; rewrite ?E; clear E
         end.
  reflexivity.
Qed.

Lemma escaped_head (text : string) :
  match list_ascii_of_string (escapeRegExp text) with
  | [] => True
  | h :: _ => h = "\"%char \/ inClass specialChars h = false
  end.
Proof.
  destruct text as [|c text]; [exact I|].
  rewrite escapeRegExp_cons. destruct (inClass specialChars c) eqn:E; simpl; auto.
Qed.

Lemma ref_parseSeq_cons (fuel : nat) (c : ascii) (s : list ascii) :
  RefEngine.parseSeq (S fuel) (c :: s)
  = if RefEngine.isChar c "|" || RefEngine.isChar c ")" then inl (RefEngine.Empty, c :: s)
    else
      match RefEngine.parseAtom fuel (c :: s) with
      | inr e => inr e
      | inl (a, s1) =>
          match RefEngine.parseQuantifier s1 with
          | inr e => inr e
          | inl (q, s2) =>
              match RefEngine.parseSeq fuel s2 with
              | inr e => inr e
              | inl (r, s3) => inl (RefEngine.Seq (q a) r, s3)
              end
          end
      end.
Proof. reflexivity. Qed.

Lemma ref_parseSeq_literal (text : string) :
  forall fuel, String.length text < fuel ->
  RefEngine.parseSeq fuel (list_ascii_of_string (escapeRegExp text))
  = inl (literalRegex text, []).
Proof.
  induction text as [|c text IH]; intros fuel Hf.
  - destruct fuel; [simpl in Hf; lia | reflexivity].
  - destruct fuel as [|fuel]; [simpl in Hf; lia|]. simpl in Hf.
    rewrite escapeRegExp_cons. destruct (inClass specialChars c) eqn:E;
      cbn [list_ascii_of_string]; rewrite ref_parseSeq_cons.
    + replace (RefEngine.isChar "\" "|" || RefEngine.isChar "\" ")") with false
        by reflexivity.
      apply inClass_In in E. rewrite (ref_parseAtom_special fuel c _ ltac:(lia) E).
      rewrite (ref_parseQuantifier_none _ (escaped_head text)).
      rewrite IH by lia. reflexivity.
    + pose proof (plain_differs c E) as F. rewrite Forall_forall in F.
      unfold RefEngine.isChar.
      rewrite (F "|"%char), (F ")"%char) by (simpl; tauto).
      cbn [orb].
      rewrite (ref_parseAtom_plain fuel c _ ltac:(lia) E).
      rewrite (ref_parseQuantifier_none _ (escaped_head text)).
      rewrite IH by lia. reflexivity.
Qed.

Lemma list_ascii_length (s : string) :
  length (list_ascii_of_string s) = String.length s.
Proof. induction s as [|c s IH]; simpl; [reflexivity | now rewrite IH]. Qed.

Lemma ref_compile_literal (text : string) :
  exists source,
    RefEngine.compile (escapeRegExp text) "g"
    = inl {| escapedSource := source;
             matchFrom :=
               RefEngine.search
                 {| RefEngine.optIgnoreCase := false; RefEngine.optMultiline := false;
                    RefEngine.optDotAll := false |}
                 (literalRegex text) |}.
Proof.
  eexists. unfold RefEngine.compile.
  replace (negb (RefEngine.validFlags (list_ascii_of_string "g"))) with false
    by reflexivity.
  cbv zeta.
  replace (4 * length (list_ascii_of_string (escapeRegExp text)) + 4)
    with (S (4 * length (list_ascii_of_string (escapeRegExp text)) + 3)) by lia.
  cbn [RefEngine.parseAlt].
  rewrite ref_parseSeq_literal.
  - reflexivity.
  - rewrite list_ascii_length, escapeRegExp_length. lia.
Qed.

Lemma ref_matchAt_literal (o : RefEngine.options) (whole : list ascii) (text : string) :
  forall i rest k,
    RefEngine.matchAt o whole (literalRegex text) i
      (list_ascii_of_string text ++ rest) k
    = k (i + String.length text) rest.
Proof.
  induction text as [|c text IH]; intros i rest k.
  - simpl. now rewrite Nat.add_0_r.
  - cbn [literalRegex RefEngine.matchAt list_ascii_of_string app RefEngine.step].
    replace (RefEngine.sameChar o c c) with true
      by (unfold RefEngine.sameChar; destruct (RefEngine.optIgnoreCase o);
          now rewrite Ascii.eqb_refl).
    rewrite IH. simpl. f_equal. lia.
Qed.

Lemma ref_matchAt_literal_inv (o : RefEngine.options) (whole : list ascii) (text : string) :
  RefEngine.optIgnoreCase o = false ->
  forall i s k e,
    RefEngine.matchAt o whole (literalRegex text) i s k = Some e ->
    exists rest, s = list_ascii_of_string text ++ rest
                 /\ k (i + String.length text) rest = Some e.
Proof.
  intros Ho. induction text as [|c text IH]; intros i s k e.
  - simpl. intros H. exists s. rewrite Nat.add_0_r. now split.
  - cbn [literalRegex RefEngine.matchAt RefEngine.step].
    destruct s as [|x s]; [discriminate|].
    unfold RefEngine.sameChar, RefEngine.step. rewrite Ho.
    destruct (Ascii.eqb c x) eqn:E; [|intros H; discriminate H].
    apply Ascii.eqb_eq in E. subst x. intros H. apply IH in H.
    destruct H as (rest & -> & Hk). exists rest. split; [reflexivity|].
    replace (i + String.length (String c text)) with (S i + String.length text)
      by (simpl; lia).
    exact Hk.
Qed.

Lemma ref_searchFrom_hit (o : RefEngine.options) (whole : list ascii)
    (r : RefEngine.regex) (i e : nat) (s : list ascii) :
  RefEngine.matchAt o whole r i s (fun e' _ => Some e') = Some e ->
  RefEngine.searchFrom o whole r i s = Some (i, e).
Proof.
  intros H. destruct s; cbn [RefEngine.searchFrom]; now rewrite H.
Qed.

Lemma ref_searchFrom_literal_found (o : RefEngine.options) (whole : list ascii)
    (text : string) (post : list ascii) :
  forall pre i,
  exists j e,
    RefEngine.searchFrom o whole (literalRegex text) i
      (pre ++ list_ascii_of_string text ++ post) = Some (j, e).
Proof.
  induction pre as [|c pre IH]; intros i.
  - cbn [app]. exists i, (i + String.length text). apply ref_searchFrom_hit.
    now rewrite ref_matchAt_literal.
  - cbn [app RefEngine.searchFrom].
    destruct (RefEngine.matchAt o whole (literalRegex text) i _ _) as [e|].
    + now do 2 eexists.
    + apply IH.
Qed.

Lemma ref_searchFrom_literal_inv (o : RefEngine.options) (whole : list ascii)
    (text : string) :
  RefEngine.optIgnoreCase o = false ->
  forall s i j e,
    RefEngine.searchFrom o whole (literalRegex text) i s = Some (j, e) ->
    exists pre post, s = pre ++ list_ascii_of_string text ++ post.
Proof.
  intros Ho. induction s as [|c s IH]; intros i j e; cbn [RefEngine.searchFrom];
    destruct (RefEngine.matchAt o whole (literalRegex text) i _ _) as [e'|] eqn:E;
    try discriminate.
  - intros _. apply (ref_matchAt_literal_inv o whole text Ho) in E.
    destruct E as (rest & -> & _). now exists [], rest.
  - intros _. apply (ref_matchAt_literal_inv o whole text Ho) in E.
    destruct E as (rest & -> & _). now exists [], rest.
  - intros H. apply IH in H. destruct H as (pre & post & ->).
    now exists (c :: pre), post.
Qed.

Lemma string_of_list_ascii_app (l1 l2 : list ascii) :
  string_of_list_ascii (l1 ++ l2)
  = (string_of_list_ascii l1 ++ string_of_list_ascii l2)%string.
Proof. induction l1 as [|c l1 IH]; simpl; [reflexivity | now rewrite IH]. Qed.

Lemma contains_as_lists (input text : string) :
  (exists pre post, input = (pre ++ text ++ post)%string)
  <-> exists pre post,
        list_ascii_of_string input = pre ++ list_ascii_of_string text ++ post.
Proof.
  split.
  - intros (pre & post & ->).
    exists (list_ascii_of_string pre), (list_ascii_of_string post).
    now rewrite !list_ascii_of_string_app.
  - intros (pre & post & H).
    exists (string_of_list_ascii pre), (string_of_list_ascii post).
    apply (f_equal string_of_list_ascii) in H.
    rewrite string_of_list_ascii_of_string, !string_of_list_ascii_app in H.
    now rewrite string_of_list_ascii_of_string in H.
Qed.

Lemma ref_search_literal (text input : string) :
  let o := {| RefEngine.optIgnoreCase := false; RefEngine.optMultiline := false;
              RefEngine.optDotAll := false |} in
  (exists m, RefEngine.search o (literalRegex text) input 0 = Some m)
  <-> exists pre post, input = (pre ++ text ++ post)%string.
Proof.
  intros o. rewrite contains_as_lists. unfold RefEngine.search. cbn [skipn]. split.
  - intros (m & H).
    destruct (RefEngine.searchFrom o (list_ascii_of_string input) (literalRegex text) 0
                (list_ascii_of_string input)) as [[j e]|] eqn:E; [|discriminate].
    now apply (ref_searchFrom_literal_inv o _ text eq_refl) in E.
  - intros (pre & post & H).
    destruct (ref_searchFrom_literal_found o (list_ascii_of_string input) text post pre 0)
      as (j & e & E).
    rewrite <- H in E. rewrite E. now eexists.
Qed.

(** X16.  On the reference engine a literal finds exactly its text:
    [test] on a builder made of [literal(text)] is true for the inputs that
    contain [text] and for no other, whatever special characters the text
    has; in particular it is true for [text] itself.  The builder is left
    as it was, with no event. *)
Theorem literal_matches_exactly_its_text (text input : string) :
  let b := literal text match_ in
  (fst (test RefEngine.compile input b) = true
   <-> exists pre post, input = (pre ++ text ++ post)%string)
  /\ snd (test RefEngine.compile input b) = b
  /\ test RefEngine.compile text b = (true, b).
Proof.
  intros b. destruct (ref_compile_literal text) as (source & Hc).
  pose proof (build_accepted RefEngine.compile b _ Hc) as Hb.
  assert (Ht : forall i,
             test RefEngine.compile i b
             = (match RefEngine.search
                        {| RefEngine.optIgnoreCase := false;
                           RefEngine.optMultiline := false;
                           RefEngine.optDotAll := false |}
                        (literalRegex text) i 0 with
                | Some _ => true
                | None => false
                end, b)).
  { intros i. unfold test. rewrite Hb. unfold RegExp_test. rewrite exec_at_zero.
    cbn [compiled matchFrom].
    now destruct (RefEngine.search _ (literalRegex text) i 0). }
  assert (Hiff : forall i,
             fst (test RefEngine.compile i b) = true
             <-> exists pre post, i = (pre ++ text ++ post)%string).
  { intros i. rewrite Ht, <- ref_search_literal. cbn [fst].
    destruct (RefEngine.search _ (literalRegex text) i 0) as [m|].
    - split; [now exists m | reflexivity].
    - split; [discriminate | intros (m & Hm); discriminate]. }
  split; [apply Hiff|]. split; [now rewrite Ht|].
  rewrite (surjective_pairing (test RefEngine.compile text b)).
  f_equal; [|now rewrite Ht].
  apply Hiff. exists "", "". simpl. now rewrite string_app_nil_r.
Qed.

Example literal_matches_example :
  fst (test RefEngine.compile "price: $5.00 (net)" (literal "$5.00 (net)" match_)) = true
  /\ fst (test RefEngine.compile "price: $5x00 (net)" (literal "$5.00 (net)" match_)) = false.
Proof. split; reflexivity. Qed.

(** ** execute: what it collects *)

Example execute_capped_example :
  (forall fuel,
     fst (execute RefEngine.compile (2 + fuel) "123 abc 456 def 789"
            (runTimes (ofZ 2) (oneOrMore (digit match_))))
     = Normal [mkMatch 0 "123" []; mkMatch 8 "456" []])
  /\ (forall fuel,
        fst (execute RefEngine.compile (4 + fuel) "123 abc 456 def 789"
               (oneOrMore (digit match_)))
        = Normal [mkMatch 0 "123" []; mkMatch 8 "456" []; mkMatch 16 "789" []]).
Proof. split; intros fuel; reflexivity. Qed.

(** C6, what the code does.  With the pattern of zero or more digits on the
    input "a1" the matches are not collected from left to right: the search
    from 0 finds the empty match at 0, and although the search from 1 would
    find "1", with no cap [execute] is still in its loop after any number of
    iterations and returns nothing, and with a cap of 3 it returns the empty
    match at 0 three times and never reaches "1". *)
Theorem execute_zero_width_matches_not_collected :
  let b := zeroOrMore (digit match_) in
  let capped := runTimes (ofZ 3) b in
  exists regex,
    build RefEngine.compile b = (inl regex, b)
    /\ build RefEngine.compile capped = (inl regex, capped)
    /\ matchFrom (compiled regex) "a1" 0 = Some (mkMatch 0 "" [])
    /\ matchFrom (compiled regex) "a1" 1 = Some (mkMatch 1 "1" [])
    /\ (forall fuel, execute RefEngine.compile fuel "a1" b = (Running, b))
    /\ (forall fuel,
          execute RefEngine.compile (3 + fuel) "a1" capped
          = (Normal [mkMatch 0 "" []; mkMatch 0 "" []; mkMatch 0 "" []], capped)).
Proof.
  intros b capped.
  destruct (RefEngine.compile (pattern b) (join_empty (flags b))) as [c|message] eqn:Hc;
    [|discriminate Hc].
  pose proof (build_accepted RefEngine.compile b c Hc) as Hb.
  pose proof (build_accepted RefEngine.compile capped c Hc) as Hb3.
  eexists. split; [exact Hb|]. split; [exact Hb3|].
  injection Hc as <-.
  split; [reflexivity|]. split; [reflexivity|]. split.
  - intros fuel. unfold execute. rewrite Hb. f_equal.
    apply loop_stuck with (m := mkMatch 0 "" []);
      [left; reflexivity | simpl; lia | reflexivity | reflexivity].
  - intros fuel. unfold execute. rewrite Hb3. reflexivity.
Qed.

Lemma substring_length (s : string) :
  forall n m, n + m <= String.length s -> String.length (substring n m s) = m.
Proof.
  induction s as [|c s IH]; intros n m H; simpl in H.
  - assert (n = 0) by lia. assert (m = 0) by lia. subst. reflexivity.
  - destruct n as [|n].
    + destruct m as [|m]; [reflexivity|]. simpl. rewrite IH; [reflexivity | lia].
    + simpl. apply IH. lia.
Qed.

Lemma ref_searchFrom_literal_span (o : RefEngine.options) (whole : list ascii)
    (text : string) :
  RefEngine.optIgnoreCase o = false ->
  forall s i j e,
    RefEngine.searchFrom o whole (literalRegex text) i s = Some (j, e) ->
    e = j + String.length text /\ j + String.length text <= i + length s.
Proof.
  intros Ho. induction s as [|c s IH]; intros i j e; cbn [RefEngine.searchFrom];
    destruct (RefEngine.matchAt o whole (literalRegex text) i _ _) as [e'|] eqn:E;
    try discriminate.
  - intros [= <- <-]. apply (ref_matchAt_literal_inv o whole text Ho) in E.
    destruct E as (rest & Hs & [= <-]). split; [reflexivity|].
    apply (f_equal (@length ascii)) in Hs.
    rewrite length_app, list_ascii_length in Hs. lia.
  - intros [= <- <-]. apply (ref_matchAt_literal_inv o whole text Ho) in E.
    destruct E as (rest & Hs & [= <-]). split; [reflexivity|].
    apply (f_equal (@length ascii)) in Hs.
    rewrite length_app, list_ascii_length in Hs. lia.
  - intros H. apply IH in H. simpl. lia.
Qed.

Lemma ref_literal_nonempty_forward (text source flagString input : string) :
  text <> "" ->
  NonEmptyForward
    {| compiled :=
         {| escapedSource := source;
            matchFrom :=
              RefEngine.search
                {| RefEngine.optIgnoreCase := false; RefEngine.optMultiline := false;
                   RefEngine.optDotAll := false |}
                (literalRegex text) |};
       originalFlags := flagString |}
    input.
Proof.
  intros Hne start m Hm. cbn [compiled matchFrom] in Hm.
  split; [now apply ref_search_starts_after in Hm|].
  pose proof (ref_search_starts_after _ _ _ _ _ Hm) as Hstart.
  unfold RefEngine.search in Hm.
  destruct (RefEngine.searchFrom _ (list_ascii_of_string input) (literalRegex text) start
              (skipn start (list_ascii_of_string input))) as [[j e]|] eqn:E;
    [|discriminate].
  injection Hm as <-. cbn [mText mIndex] in *.
  eapply ref_searchFrom_literal_span in E; [|reflexivity]. destruct E as [-> Hle].
  rewrite length_skipn, list_ascii_length in Hle.
  assert (0 < String.length text) by (destruct text; [contradiction | simpl; lia]).
  replace (j + String.length text - j) with (String.length text) by lia.
  rewrite substring_length; lia.
Qed.

(** X17.  On an engine that compiles the match-nothing pattern, for a
    builder that has the global flag: with a cap of [n], [execute] returns
    for every input within [n] iterations, and what it returns are matches
    found one after the other, each search starting at the end of the match
    before it, [n] of them or fewer when a search finds nothing.  With no
    cap, when every match the expression finds on the input is non-empty and
    starts at or after the position searched from, [execute] returns the
    complete list of those matches, up to the search that finds none, and
    they lie strictly from left to right. *)
Theorem execute_returns_successive_matches (engine : Engine) :
  SentinelMatchesNothing engine ->
  forall b input, In "g" (flags b) ->
  exists regex b',
    build engine b = (inl regex, b')
    /\ (forall c n, maxRun b = Some c -> represents c (Z.of_nat n) -> 0 < n ->
        exists ms,
          (forall fuel, n <= fuel -> execute engine fuel input b = (Normal ms, b'))
          /\ Successive regex input 0 ms
          /\ length ms <= n
          /\ (length ms < n -> NoMoreFrom regex input (endOf 0 ms)))
    /\ (maxRun b = None -> NonEmptyForward regex input ->
        exists ms,
          (forall fuel, length ms < fuel ->
                        execute engine fuel input b = (Normal ms, b'))
          /\ Successive regex input 0 ms
          /\ NoMoreFrom regex input (endOf 0 ms)
          /\ StrictlyLeftToRight ms).
Proof.
  intros Hsent b input Hg.
  destruct (build_searches engine b Hsent Hg) as (regex & b' & Hb & Hr).
  exists regex, b'. split; [exact Hb|]. split.
  - intros c n Hc Hrep Hn.
    destruct (take_matches regex input n 0) as (ms & Hs & Hlen & Hno).
    exists ms. split; [|auto]. intros fuel Hf. unfold execute. rewrite Hb, Hc.
    f_equal.
    apply (loop_capped regex input Hr (Some c) n ms 0
             (fun k => capReached_represents c n k Hrep) Hs fuel 0 []);
      simpl; auto.
    destruct (Nat.eq_dec (length ms) n) as [E|E]; [right; lia | left; lia].
  - intros Hc Hlaw.
    destruct (matches_finite_when_they_advance regex input) with (start := 0)
      as (ms & Hs & Hno).
    { intros start m _ Hm. destruct (Hlaw start m Hm). unfold mEnd. lia. }
    exists ms. split; [|split; [exact Hs | split; [exact Hno|]]].
    + intros fuel Hf. unfold execute. rewrite Hb, Hc. f_equal.
      apply (loop_uncapped regex input Hr ms 0 Hs Hno fuel 0 [] Hf).
    + exact (proj2 (Successive_strictly_left_to_right regex input Hlaw ms 0 Hs)).
Qed.

Lemma execute_returns_successive_matches_witness :
  (let b := runTimes (ofZ 2) (oneOrMore (digit match_)) in
   exists regex b' ms,
     build RefEngine.compile b = (inl regex, b')
     /\ execute RefEngine.compile 2 "123 abc 456 def 789" b = (Normal ms, b')
     /\ Successive regex "123 abc 456 def 789" 0 ms
     /\ length ms <= 2)
  /\ (let b := literal "an" match_ in
      exists ms,
        execute RefEngine.compile (S (length ms)) "banana" b = (Normal ms, b)
        /\ StrictlyLeftToRight ms).
Proof.
  split.
  - intros b.
    destruct (execute_returns_successive_matches RefEngine.compile
                ref_sentinel_matches_nothing b "123 abc 456 def 789"
                (or_introl eq_refl))
      as (regex & b' & Hb & Hcap & _).
    destruct (Hcap (ofZ 2) 2 eq_refl (represents_ofZ 2) ltac:(lia))
      as (ms & Hex & Hs & Hlen & _).
    exists regex, b', ms. split; [exact Hb|].
    split; [apply Hex; lia | split; assumption].
  - intros b.
    destruct (execute_returns_successive_matches RefEngine.compile
                ref_sentinel_matches_nothing b "banana" (or_introl eq_refl))
      as (regex & b' & Hb & _ & Hunc).
    destruct (ref_compile_literal "an") as (source & Hc).
    rewrite (build_accepted RefEngine.compile b _ Hc) in Hb.
    injection Hb as <- <-.
    destruct (Hunc eq_refl) as (ms & Hex & _ & _ & Hord).
    + apply (ref_literal_nonempty_forward "an"). discriminate.
    + exists ms. split; [apply Hex; lia | exact Hord].
Defined.
